(** * Space-filling curves and convex polygons of sphgeom

    A shallow embedding of [include/lsst/sphgeom/curve.h] (most significant
    bit index, Morton and Hilbert indexes) and of the inline members of
    [ConvexPolygon.h], with the properties stated about them.

    Unsigned C++ integers are modelled as [Z] together with their wrap-around:
    a [uint64_t] is a [Z] in [[0, 2^64)], and every operation that can carry
    out of the word ([<<], [*], [-]) is followed by [u64] (resp. [u32]).
    Right shifts and the bitwise operations cannot leave the word. *)

From Stdlib Require Import ZArith List Bool Lia Btauto.
From coqutil Require Import Byte Word.LittleEndianList.
Import ListNotations.

Local Open Scope Z_scope.

(** ** Machine words *)

Definition u64 (z : Z) : Z := z mod 2 ^ 64.
Definition u32 (z : Z) : Z := z mod 2 ^ 32.

(** [a << k] and [a * b] on [uint64_t]. *)
Definition shl64 (a k : Z) : Z := u64 (Z.shiftl a k).
Definition mul64 (a b : Z) : Z := u64 (a * b).
Definition sub64 (a b : Z) : Z := u64 (a - b).
Definition mul32 (a b : Z) : Z := u32 (a * b).

(** Reading a constant table: [T[i]]. *)
Definition tbl (T : list Z) (i : Z) : Z := nth (Z.to_nat i) T 0.

Infix ">>" := Z.shiftr (at level 32, left associativity) : Z_scope.
Infix ".|" := Z.lor (at level 40, left associativity) : Z_scope.
Infix ".&" := Z.land (at level 38, left associativity) : Z_scope.

(** ** [log2]: index of the most significant 1 bit *)

Module Log2.

Definition PERFECT_HASH_TABLE_64 : list Z :=
  [  0;  1;  2;  7;  3; 13;  8; 19;  4; 25; 14; 28;  9; 34; 20; 40;
     5; 17; 26; 38; 15; 46; 29; 48; 10; 31; 35; 54; 21; 50; 41; 57;
    63;  6; 12; 18; 24; 27; 33; 39; 16; 37; 45; 47; 30; 53; 49; 56;
    62; 11; 23; 32; 36; 44; 52; 55; 61; 22; 43; 51; 60; 42; 59; 58 ].

Definition DE_BRUIJN_SEQUENCE_64 : Z := 0x0218a392cd3d5dbf.

(** [inline uint8_t log2(uint64_t x)] *)
Definition log2_64 (x : Z) : Z :=
  let x := x .| (x >> 1) in
  let x := x .| (x >> 2) in
  let x := x .| (x >> 4) in
  let x := x .| (x >> 8) in
  let x := x .| (x >> 16) in
  let x := x .| (x >> 32) in
  let x := sub64 x (x >> 1) in
  tbl PERFECT_HASH_TABLE_64 (mul64 DE_BRUIJN_SEQUENCE_64 x >> 58).

Definition PERFECT_HASH_TABLE_32 : list Z :=
  [ 0;  9;  1; 10; 13; 21;  2; 29; 11; 14; 16; 18; 22; 25; 3; 30;
    8; 12; 20; 28; 15; 17; 24;  7; 19; 27; 23;  6; 26;  5; 4; 31 ].

Definition DE_BRUIJN_SEQUENCE_32 : Z := 0x07c4acdd.

(** [inline uint8_t log2(uint32_t x)] *)
Definition log2_32 (x : Z) : Z :=
  let x := x .| (x >> 1) in
  let x := x .| (x >> 2) in
  let x := x .| (x >> 4) in
  let x := x .| (x >> 8) in
  let x := x .| (x >> 16) in
  tbl PERFECT_HASH_TABLE_32 (mul32 DE_BRUIJN_SEQUENCE_32 x >> 27).

End Log2.

(** ** Morton order (the portable, [NO_SIMD] path) *)

(** [inline uint64_t mortonIndex(uint32_t x, uint32_t y)] *)
Definition mortonIndex (x y : Z) : Z :=
  let b := y in
  let a := x in
  let b := (b .| shl64 b 16) .& 0x0000ffff0000ffff in
  let a := (a .| shl64 a 16) .& 0x0000ffff0000ffff in
  let b := (b .| shl64 b 8) .& 0x00ff00ff00ff00ff in
  let a := (a .| shl64 a 8) .& 0x00ff00ff00ff00ff in
  let b := (b .| shl64 b 4) .& 0x0f0f0f0f0f0f0f0f in
  let a := (a .| shl64 a 4) .& 0x0f0f0f0f0f0f0f0f in
  let b := (b .| shl64 b 2) .& 0x3333333333333333 in
  let a := (a .| shl64 a 2) .& 0x3333333333333333 in
  let b := (b .| shl64 b 1) .& 0x5555555555555555 in
  let a := (a .| shl64 a 1) .& 0x5555555555555555 in
  a .| shl64 b 1.

(** [inline std::tuple<uint32_t, uint32_t> mortonIndexInverse(uint64_t z)] *)
Definition mortonIndexInverse (z : Z) : Z * Z :=
  let x := z .& 0x5555555555555555 in
  let y := (z >> 1) .& 0x5555555555555555 in
  let x := (x .| (x >> 1)) .& 0x3333333333333333 in
  let y := (y .| (y >> 1)) .& 0x3333333333333333 in
  let x := (x .| (x >> 2)) .& 0x0f0f0f0f0f0f0f0f in
  let y := (y .| (y >> 2)) .& 0x0f0f0f0f0f0f0f0f in
  let x := (x .| (x >> 4)) .& 0x00ff00ff00ff00ff in
  let y := (y .| (y >> 4)) .& 0x00ff00ff00ff00ff in
  let x := (x .| (x >> 8)) .& 0x0000ffff0000ffff in
  let y := (y .| (y >> 8)) .& 0x0000ffff0000ffff in
  (u32 (x .| (x >> 16)), u32 (y .| (y >> 16))).

(** ** Hilbert order *)

Definition HILBERT_LUT_1 : Z := 0x8d3ec79a6b5021f4.
Definition HILBERT_INVERSE_LUT_1 : Z := 0x1ceb689fa750d324.

Definition HILBERT_LUT_3 : list Z :=
  [ 0x40; 0xc3; 0x01; 0x02; 0x04; 0x45; 0x87; 0x46;
    0x8e; 0x8d; 0x4f; 0xcc; 0x08; 0x49; 0x8b; 0x4a;
    0xfa; 0x3b; 0xf9; 0xb8; 0x7c; 0xff; 0x3d; 0x3e;
    0xf6; 0x37; 0xf5; 0xb4; 0xb2; 0xb1; 0x73; 0xf0;
    0x10; 0x51; 0x93; 0x52; 0xde; 0x1f; 0xdd; 0x9c;
    0x54; 0xd7; 0x15; 0x16; 0x58; 0xdb; 0x19; 0x1a;
    0x20; 0x61; 0xa3; 0x62; 0xee; 0x2f; 0xed; 0xac;
    0x64; 0xe7; 0x25; 0x26; 0x68; 0xeb; 0x29; 0x2a;
    0x00; 0x41; 0x83; 0x42; 0xce; 0x0f; 0xcd; 0x8c;
    0x44; 0xc7; 0x05; 0x06; 0x48; 0xcb; 0x09; 0x0a;
    0x50; 0xd3; 0x11; 0x12; 0x14; 0x55; 0x97; 0x56;
    0x9e; 0x9d; 0x5f; 0xdc; 0x18; 0x59; 0x9b; 0x5a;
    0xba; 0xb9; 0x7b; 0xf8; 0xb6; 0xb5; 0x77; 0xf4;
    0x3c; 0x7d; 0xbf; 0x7e; 0xf2; 0x33; 0xf1; 0xb0;
    0x60; 0xe3; 0x21; 0x22; 0x24; 0x65; 0xa7; 0x66;
    0xae; 0xad; 0x6f; 0xec; 0x28; 0x69; 0xab; 0x6a;
    0xaa; 0xa9; 0x6b; 0xe8; 0xa6; 0xa5; 0x67; 0xe4;
    0x2c; 0x6d; 0xaf; 0x6e; 0xe2; 0x23; 0xe1; 0xa0;
    0x9a; 0x99; 0x5b; 0xd8; 0x96; 0x95; 0x57; 0xd4;
    0x1c; 0x5d; 0x9f; 0x5e; 0xd2; 0x13; 0xd1; 0x90;
    0x70; 0xf3; 0x31; 0x32; 0x34; 0x75; 0xb7; 0x76;
    0xbe; 0xbd; 0x7f; 0xfc; 0x38; 0x79; 0xbb; 0x7a;
    0xca; 0x0b; 0xc9; 0x88; 0x4c; 0xcf; 0x0d; 0x0e;
    0xc6; 0x07; 0xc5; 0x84; 0x82; 0x81; 0x43; 0xc0;
    0xea; 0x2b; 0xe9; 0xa8; 0x6c; 0xef; 0x2d; 0x2e;
    0xe6; 0x27; 0xe5; 0xa4; 0xa2; 0xa1; 0x63; 0xe0;
    0x30; 0x71; 0xb3; 0x72; 0xfe; 0x3f; 0xfd; 0xbc;
    0x74; 0xf7; 0x35; 0x36; 0x78; 0xfb; 0x39; 0x3a;
    0xda; 0x1b; 0xd9; 0x98; 0x5c; 0xdf; 0x1d; 0x1e;
    0xd6; 0x17; 0xd5; 0x94; 0x92; 0x91; 0x53; 0xd0;
    0x8a; 0x89; 0x4b; 0xc8; 0x86; 0x85; 0x47; 0xc4;
    0x0c; 0x4d; 0x8f; 0x4e; 0xc2; 0x03; 0xc1; 0x80 ].

Definition HILBERT_INVERSE_LUT_3 : list Z :=
  [ 0x40; 0x02; 0x03; 0xc1; 0x04; 0x45; 0x47; 0x86;
    0x0c; 0x4d; 0x4f; 0x8e; 0xcb; 0x89; 0x88; 0x4a;
    0x20; 0x61; 0x63; 0xa2; 0x68; 0x2a; 0x2b; 0xe9;
    0x6c; 0x2e; 0x2f; 0xed; 0xa7; 0xe6; 0xe4; 0x25;
    0x30; 0x71; 0x73; 0xb2; 0x78; 0x3a; 0x3b; 0xf9;
    0x7c; 0x3e; 0x3f; 0xfd; 0xb7; 0xf6; 0xf4; 0x35;
    0xdf; 0x9d; 0x9c; 0x5e; 0x9b; 0xda; 0xd8; 0x19;
    0x93; 0xd2; 0xd0; 0x11; 0x54; 0x16; 0x17; 0xd5;
    0x00; 0x41; 0x43; 0x82; 0x48; 0x0a; 0x0b; 0xc9;
    0x4c; 0x0e; 0x0f; 0xcd; 0x87; 0xc6; 0xc4; 0x05;
    0x50; 0x12; 0x13; 0xd1; 0x14; 0x55; 0x57; 0x96;
    0x1c; 0x5d; 0x5f; 0x9e; 0xdb; 0x99; 0x98; 0x5a;
    0x70; 0x32; 0x33; 0xf1; 0x34; 0x75; 0x77; 0xb6;
    0x3c; 0x7d; 0x7f; 0xbe; 0xfb; 0xb9; 0xb8; 0x7a;
    0xaf; 0xee; 0xec; 0x2d; 0xe7; 0xa5; 0xa4; 0x66;
    0xe3; 0xa1; 0xa0; 0x62; 0x28; 0x69; 0x6b; 0xaa;
    0xff; 0xbd; 0xbc; 0x7e; 0xbb; 0xfa; 0xf8; 0x39;
    0xb3; 0xf2; 0xf0; 0x31; 0x74; 0x36; 0x37; 0xf5;
    0x9f; 0xde; 0xdc; 0x1d; 0xd7; 0x95; 0x94; 0x56;
    0xd3; 0x91; 0x90; 0x52; 0x18; 0x59; 0x5b; 0x9a;
    0x8f; 0xce; 0xcc; 0x0d; 0xc7; 0x85; 0x84; 0x46;
    0xc3; 0x81; 0x80; 0x42; 0x08; 0x49; 0x4b; 0x8a;
    0x60; 0x22; 0x23; 0xe1; 0x24; 0x65; 0x67; 0xa6;
    0x2c; 0x6d; 0x6f; 0xae; 0xeb; 0xa9; 0xa8; 0x6a;
    0xbf; 0xfe; 0xfc; 0x3d; 0xf7; 0xb5; 0xb4; 0x76;
    0xf3; 0xb1; 0xb0; 0x72; 0x38; 0x79; 0x7b; 0xba;
    0xef; 0xad; 0xac; 0x6e; 0xab; 0xea; 0xe8; 0x29;
    0xa3; 0xe2; 0xe0; 0x21; 0x64; 0x26; 0x27; 0xe5;
    0xcf; 0x8d; 0x8c; 0x4e; 0x8b; 0xca; 0xc8; 0x09;
    0x83; 0xc2; 0xc0; 0x01; 0x44; 0x06; 0x07; 0xc5;
    0x10; 0x51; 0x53; 0x92; 0x58; 0x1a; 0x1b; 0xd9;
    0x5c; 0x1e; 0x1f; 0xdd; 0x97; 0xd6; 0xd4; 0x15 ].

(** The state of the two table-driven loops: the remaining bit count [m],
    the index built so far and the table offset [i]. *)
Record loop_state : Type := LoopState { ls_m : Z; ls_out : Z; ls_i : Z }.

(** The [for (m = 2 * m; m >= 6;) { ... }] loop shared, up to the table, by
    [mortonToHilbert] and [hilbertToMorton].  [fuel] bounds the number of
    iterations; the loop leaves by its own test as soon as [m < 6]. *)
Fixpoint lut3_loop (T : list Z) (fuel : nat) (w : Z) (st : loop_state)
  : loop_state :=
  match fuel with
  | O => st
  | S fuel' =>
      if 6 <=? ls_m st then
        let m := ls_m st - 6 in
        let j := tbl T (ls_i st .| ((w >> m) .& 0x3f)) in
        let h := shl64 (ls_out st) 6 .| (j .& 0x3f) in
        let i := j .& 0xc0 in
        lut3_loop T fuel' w (LoopState m h i)
      else st
  end.

(** The body shared by the two conversions: the loop, then the final
    partial group of 2 or 4 bits.  The [int m] of the source is a [Z]:
    [2 * m] does not overflow for the orders [0 <= m <= 32] of the
    contract. *)
Definition lut3_convert (T : list Z) (w m : Z) : Z :=
  let st := lut3_loop T (Z.to_nat (2 * m)) w (LoopState (2 * m) 0 0) in
  let m := ls_m st in
  let h := ls_out st in
  let i := ls_i st in
  if negb (m =? 0) then
    let r := 6 - m in
    let j := tbl T (i .| (shl64 w r .& 0x3f)) in
    shl64 h m .| ((j .& 0x3f) >> r)
  else h.

(** [inline uint64_t mortonToHilbert(uint64_t z, int m)] *)
Definition mortonToHilbert (z m : Z) : Z := lut3_convert HILBERT_LUT_3 z m.

(** [inline uint64_t hilbertToMorton(uint64_t h, int m)] *)
Definition hilbertToMorton (h m : Z) : Z := lut3_convert HILBERT_INVERSE_LUT_3 h m.

(** [inline uint64_t hilbertIndex(uint32_t x, uint32_t y, int m)] *)
Definition hilbertIndex (x y m : Z) : Z := mortonToHilbert (mortonIndex x y) m.

(** [inline std::tuple<uint32_t, uint32_t> hilbertIndexInverse(uint64_t h, int m)] *)
Definition hilbertIndexInverse (h m : Z) : Z * Z :=
  mortonIndexInverse (hilbertToMorton h m).

(** The one-bit-pair-at-a-time loop of the reference implementation given in
    the header comment of the file:
<<
    for (m = 2 * m; m != 0;) {
        m -= 2;
        i = (i & 0xc) | ((z >> m) & 3);
        i = HILBERT_LUT_1 >> (i * 4);
        h = (h << 2) | (i & 3);
    }
>> *)
Fixpoint lut1_loop (L : Z) (fuel : nat) (z : Z) (st : loop_state) : loop_state :=
  match fuel with
  | O => st
  | S fuel' =>
      if negb (ls_m st =? 0) then
        let m := ls_m st - 2 in
        let i := (ls_i st .& 0xc) .| ((z >> m) .& 3) in
        let i := L >> mul64 i 4 in
        let h := shl64 (ls_out st) 2 .| (i .& 3) in
        lut1_loop L fuel' z (LoopState m h i)
      else st
  end.

(** The reference [hilbertIndex] of the header comment, after its call of
    [mortonIndex]. *)
Definition mortonToHilbert_ref (z m : Z) : Z :=
  ls_out (lut1_loop HILBERT_LUT_1 (Z.to_nat (2 * m)) z (LoopState (2 * m) 0 0)).

Definition hilbertIndex_ref (x y m : Z) : Z :=
  mortonToHilbert_ref (mortonIndex x y) m.

(** ** [ConvexPolygon] *)

(** Modelled from the spec: [UnitVector3d.h] is missing.  A vector is
    "three finite floating-point components"; a [double] is held as its
    IEEE-754 bit pattern, a 64-bit integer. *)
Record UnitVector3d : Type := Vector3d { v_x : Z; v_y : Z; v_z : Z }.

(** [class ConvexPolygon : public Region], with its one data member
    [std::vector<UnitVector3d> _vertices]. *)
Record ConvexPolygon : Type := Polygon { _vertices : list UnitVector3d }.

(** [static constexpr uint8_t TYPE_CODE = 'p';] *)
Definition TYPE_CODE : byte := Byte.x70.

(** [std::vector<UnitVector3d> const & getVertices() const] *)
Definition getVertices (p : ConvexPolygon) : list UnitVector3d := _vertices p.

(** Modelled from the spec: [Relationship.h] is missing; the four
    relationships of region A to region B. *)
Inductive Relationship : Type := DISJOINT | INTERSECTS | CONTAINS | WITHIN.

(** Modelled from the spec: [invert] of [Relationship.h] is missing; it
    "maps DISJOINT to DISJOINT, INTERSECTS to INTERSECTS, CONTAINS to WITHIN,
    WITHIN to CONTAINS". *)
Definition invert (r : Relationship) : Relationship :=
  match r with
  | DISJOINT => DISJOINT
  | INTERSECTS => INTERSECTS
  | CONTAINS => WITHIN
  | WITHIN => CONTAINS
  end.

(** Modelled from the spec: [Region.h] is missing.  Of the [Region]
    interface, [ConvexPolygon::relate(Region const &)] calls one member, the
    virtual overload [relate(ConvexPolygon const &)] of the other region:
    [*this] has the static type [ConvexPolygon]. *)
Record Region : Type := { relate_ConvexPolygon : ConvexPolygon -> Relationship }.

(** [Relationship relate(Region const & r) const override]:
    [return invert(r.relate( *this));] *)
Definition relate (this : ConvexPolygon) (r : Region) : Relationship :=
  invert (relate_ConvexPolygon r this).

(** The outcome of [decode]: a polygon, or the exception. *)
Inductive decoded : Type :=
| Decoded (p : ConvexPolygon)
| DecodeError.

Definition encodeVertex (v : UnitVector3d) : list byte :=
  le_split 8 (v_x v) ++ le_split 8 (v_y v) ++ le_split 8 (v_z v).

(** Modelled from the spec: [ConvexPolygon::encode] is defined in
    [ConvexPolygon.cc], which is missing.  "1-byte type code, followed by a
    4-byte unsigned vertex count, followed by the vertex coordinates as three
    8-byte IEEE-754 double-precision values per vertex in a fixed byte
    order" (little-endian here). *)
Definition encode (p : ConvexPolygon) : list byte :=
  TYPE_CODE :: le_split 4 (Z.of_nat (length (_vertices p)))
            ++ flat_map encodeVertex (_vertices p).

Fixpoint decodeVertices (count : nat) (b : list byte) : list UnitVector3d :=
  match count with
  | O => []
  | S count' =>
      Vector3d (le_combine (firstn 8 b))
               (le_combine (firstn 8 (skipn 8 b)))
               (le_combine (firstn 8 (skipn 16 b)))
      :: decodeVertices count' (skipn 24 b)
  end.

(** Modelled from the spec: [ConvexPolygon::decode(uint8_t const *, size_t)]
    is defined in [ConvexPolygon.cc], which is missing.  It "validates the
    buffer is at least 5 bytes, that the leading type code matches 'p', and
    that the declared vertex count is consistent with the remaining buffer
    length; reconstructs the vertex sequence verbatim". *)
Definition decode (s : list byte) : decoded :=
  match s with
  | tc :: rest =>
      if (length s <? 5)%nat then DecodeError
      else if negb (Byte.eqb tc TYPE_CODE) then DecodeError
      else
        let count := le_combine (firstn 4 rest) in
        let body := skipn 4 rest in
        if Z.of_nat (length body) =? 24 * count
        then Decoded (Polygon (decodeVertices (Z.to_nat count) body))
        else DecodeError
  | [] => DecodeError
  end.

(** A coordinate is a 64-bit pattern. *)
Definition is_double (d : Z) : Prop := 0 <= d < 2 ^ 64.

Definition is_vector (v : UnitVector3d) : Prop :=
  is_double (v_x v) /\ is_double (v_y v) /\ is_double (v_z v).

(** A constructed polygon: at least 3 vertices, their number a 32-bit
    count, their coordinates doubles. *)
Definition constructed (p : ConvexPolygon) : Prop :=
  (3 <= length (_vertices p))%nat /\
  Z.of_nat (length (_vertices p)) < 2 ^ 32 /\
  Forall is_vector (_vertices p).

(** The triangle of the three basis vectors; [0x3ff0000000000000] is the
    bit pattern of [1.0]. *)
Definition triangle : ConvexPolygon :=
  Polygon [ Vector3d 0x3ff0000000000000 0 0;
            Vector3d 0 0x3ff0000000000000 0;
            Vector3d 0 0 0x3ff0000000000000 ].

(** ** Definitions used by the proofs *)

(** The integers [0, 1, ..., n-1]. *)
Definition range (n : nat) : list Z := map Z.of_nat (seq 0 n).


(** *** Morton order, one operand at a time *)

(** The steps of [mortonIndex] on [a] and those on [b] do not depend on
    each other: both operands go through [spread], and
    [mortonIndex x y = spread x | (spread y << 1)]. *)
Definition spread (a : Z) : Z :=
  let a := (a .| shl64 a 16) .& 0x0000ffff0000ffff in
  let a := (a .| shl64 a 8) .& 0x00ff00ff00ff00ff in
  let a := (a .| shl64 a 4) .& 0x0f0f0f0f0f0f0f0f in
  let a := (a .| shl64 a 2) .& 0x3333333333333333 in
  let a := (a .| shl64 a 1) .& 0x5555555555555555 in
  a.

(** *** Networks of shifts, ors and masks

    [mortonIndex] and [mortonIndexInverse] are fixed networks of shifts, ors
    and constant masks over one input word.  [bexp] is the syntax of such a
    network, [eval] what it computes and [src e i] the input bits that are
    or-ed together into bit [i] of the output. *)
Inductive bexp : Type :=
| BIn
| BAnd (e : bexp) (c : Z)
| BOr (e1 e2 : bexp)
| BShl (e : bexp) (k : Z)
| BShr (e : bexp) (k : Z)
| BU32 (e : bexp).

Fixpoint eval (e : bexp) (w : Z) : Z :=
  match e with
  | BIn => w
  | BAnd e c => eval e w .& c
  | BOr e1 e2 => eval e1 w .| eval e2 w
  | BShl e k => shl64 (eval e w) k
  | BShr e k => eval e w >> k
  | BU32 e => u32 (eval e w)
  end.

Fixpoint src (e : bexp) (i : Z) : list Z :=
  match e with
  | BIn => [i]
  | BAnd e c => if Z.testbit c i then src e i else []
  | BOr e1 e2 => src e1 i ++ src e2 i
  | BShl e k => if (k <=? i) && (i <? 64) then src e (i - k) else []
  | BShr e k => src e (i + k)
  | BU32 e => if i <? 32 then src e i else []
  end.

(** Shift amounts are not negative. *)
Fixpoint bwf (e : bexp) : bool :=
  match e with
  | BIn => true
  | BAnd e _ | BU32 e => bwf e
  | BOr e1 e2 => bwf e1 && bwf e2
  | BShl e k | BShr e k => (0 <=? k) && bwf e
  end.

Definition up (k c : Z) (e : bexp) : bexp := BAnd (BOr e (BShl e k)) c.
Definition down (k c : Z) (e : bexp) : bexp := BAnd (BOr e (BShr e k)) c.

Definition spread_net : bexp :=
  up 1 0x5555555555555555 (up 2 0x3333333333333333 (up 4 0x0f0f0f0f0f0f0f0f
    (up 8 0x00ff00ff00ff00ff (up 16 0x0000ffff0000ffff BIn)))).

Definition squeeze_net (e : bexp) : bexp :=
  let e := down 8 0x0000ffff0000ffff (down 4 0x00ff00ff00ff00ff
    (down 2 0x0f0f0f0f0f0f0f0f (down 1 0x3333333333333333 e))) in
  BU32 (BOr e (BShr e 16)).

Definition inverse_x_net : bexp := squeeze_net (BAnd BIn 0x5555555555555555).
Definition inverse_y_net : bexp :=
  squeeze_net (BAnd (BShr BIn 1) 0x5555555555555555).

(** Every source of output bit [i] that lies below [n] is [t], and [t] is
    one of them if [want] holds. *)
Definition only_src (n t : Z) (want : bool) (l : list Z) : bool :=
  forallb (fun j => (j =? t) || (n <=? j)) l &&
  (if want then existsb (fun j => j =? t) l else forallb (fun j => n <=? j) l).

(** The only source is [t]. *)
Definition one_src (t : Z) (l : list Z) : bool :=
  match l with
  | [j] => j =? t
  | _ => false
  end.

(** *** Most significant bit *)

(** [r] is the 0-based index of the highest set bit of [x]. *)
Definition is_msb_index (x r : Z) : Prop :=
  0 <= r /\ Z.testbit x r = true /\ forall j, r < j -> Z.testbit x j = false.

(** The [w] bits of [a] from bit [k] downwards are set and no bit above [k]
    is: the state of [x] in [log2] after the or-shift steps. *)
Definition filled (k w a : Z) : Prop :=
  0 <= a < 2 ^ (k + 1) /\
  forall n, 0 <= n -> k - w < n <= k -> Z.testbit a n = true.

(** *** The Hilbert transducer, one bit pair at a time

    Both 64-bit constants [HILBERT_LUT_1] and [HILBERT_INVERSE_LUT_1] hold
    16 entries of 4 bits: entry [4 * s + d] gives, for the state [s] and the
    input bit pair [d], the next state (its two high bits) and the output
    bit pair (its two low bits). *)
Definition lut1 (L s d : Z) : Z := (L >> (4 * (4 * s + d))) .& 0xf.

(** Bit pair [k] of [w]. *)
Definition digit (w : Z) (k : nat) : Z := (w >> (2 * Z.of_nat k)) .& 3.

(** [run L n s w] feeds the [n] low bit pairs of [w], most significant
    first, to the transducer [L] started in state [s]; it returns the [n]
    output bit pairs as a number, and the final state. *)
Fixpoint run (L : Z) (n : nat) (s w : Z) : Z * Z :=
  match n with
  | O => (0, s)
  | S k =>
      let e := lut1 L s (digit w k) in
      let (o, s') := run L k (e >> 2) w in
      ((e .& 3) * 4 ^ Z.of_nat k + o, s')
  end.

(** The 256-entry table [T] is the transducer [L] unrolled three times:
    entry [64 * s + b] holds the three output bit pairs in its six low bits
    and the final state in its two high bits. *)
Definition unrolled (T : list Z) (L : Z) : bool :=
  forallb (fun s => forallb (fun b =>
    let j := tbl T (64 * s .| b) in
    (j .& 0x3f =? fst (run L 3 s b)) &&
    (j .& 0xc0 =? 64 * snd (run L 3 s b))) (range 64)) (range 4).

(** The index arithmetic of the one-bit-pair loop: for a state kept in bits
    2 and 3 of [t] and an input pair [d], [((t & 0xc) | d) * 4] is the bit
    offset of entry [4 * s + d]. *)
Definition lut1_index_ok : bool :=
  forallb (fun t => forallb (fun d =>
    mul64 ((t .& 0xc) .| d) 4 =? 4 * (4 * ((t .& 0xc) >> 2) + d))
    (range 4)) (range 16).

(** [Linv] undoes [L] step by step: from the same state, it maps the output
    pair of [L] back to the input pair and reaches the same next state. *)
Definition inverse_lut (L Linv : Z) : bool :=
  forallb (fun s => forallb (fun d =>
    let e := lut1 L s d in
    let e' := lut1 Linv s (e .& 3) in
    (e' .& 3 =? d) && (e' >> 2 =? e >> 2)) (range 4)) (range 4).

(** *** The geometry of the curve *)

(** Two grid cells differ by exactly 1 in exactly one coordinate. *)
Definition adjacent (p q : Z * Z) : Prop :=
  (Z.abs (fst p - fst q) = 1 /\ snd p = snd q) \/
  (fst p = fst q /\ Z.abs (snd p - snd q) = 1).

(** What [HILBERT_INVERSE_LUT_1] says of the state [s] and the bit pair [d]
    of a Hilbert index: the quadrant entered (the bit of [x] and the bit
    of [y]) and the state in which that quadrant is traversed. *)
Definition quadrant (s d : Z) : Z * Z :=
  let q := lut1 HILBERT_INVERSE_LUT_1 s d .& 3 in (q mod 2, q / 2).

Definition next_state (s d : Z) : Z := lut1 HILBERT_INVERSE_LUT_1 s d >> 2.

(** [curve n s h] is the cell of index [h] on the order-[n] curve traversed
    in state [s]: the quadrant chosen by the top bit pair of [h], then the
    order-[n-1] curve inside it. *)
Fixpoint curve (n : nat) (s h : Z) : Z * Z :=
  match n with
  | O => (0, 0)
  | S k =>
      let (qx, qy) := quadrant s (digit h k) in
      let (x, y) := curve k (next_state s (digit h k)) h in
      (qx * 2 ^ Z.of_nat k + x, qy * 2 ^ Z.of_nat k + y)
  end.

(** The corner of the square where the curve in state [s] starts, and the
    one where it ends; a coordinate is 0 for the low side, 1 for the high
    side. *)
Definition entry_corner (s : Z) : Z * Z := quadrant s 0.
Definition exit_corner (s : Z) : Z * Z := quadrant s 3.

Definition pair_eqb (p q : Z * Z) : bool :=
  (fst p =? fst q) && (snd p =? snd q).

(** The first and last sub-curves start and end in the corners of the
    whole curve. *)
Definition corners_ok : bool :=
  forallb (fun s =>
    pair_eqb (entry_corner (next_state s 0)) (entry_corner s) &&
    pair_eqb (exit_corner (next_state s 3)) (exit_corner s)) (range 4).

(** Along one axis, from the quadrant [q] left at side [e] to the quadrant
    [q'] entered at side [f]: the two cells face each other across the
    middle of the square ... *)
Definition crosses (q e q' f : Z) : bool :=
  ((q =? 0) && (e =? 1) && (q' =? 1) && (f =? 0)) ||
  ((q =? 1) && (e =? 0) && (q' =? 0) && (f =? 1)).

(** ... or have the same coordinate. *)
Definition stays (q e q' f : Z) : bool :=
  (q =? q') && (e =? f) && ((e =? 0) || (e =? 1)).

(** Where the curve in state [s] passes from quadrant [d] to quadrant
    [d + 1], it crosses along one axis and stays along the other. *)
Definition junction_ok : bool :=
  forallb (fun s => forallb (fun d =>
    let q := quadrant s d in
    let e := exit_corner (next_state s d) in
    let q' := quadrant s (d + 1) in
    let f := entry_corner (next_state s (d + 1)) in
    (crosses (fst q) (fst e) (fst q') (fst f) &&
     stays (snd q) (snd e) (snd q') (snd f)) ||
    (stays (fst q) (fst e) (fst q') (fst f) &&
     crosses (snd q) (snd e) (snd q') (snd f))) (range 3)) (range 4).

(** ** The SSE2 path of the Morton order ([__x86_64__] without [NO_SIMD]) *)

(** A [__m128i] register, as the two 64-bit lanes on which the [epi64]
    operations work; [lane0] is the low one. *)
Record m128i : Type := M128 { lane0 : Z; lane1 : Z }.

(** [static_cast<int64_t>(u)] of an unsigned 64-bit (or 32-bit) [u]. *)
Definition to_int64 (u : Z) : Z := if u <? 2 ^ 63 then u else u - 2 ^ 64.

(** The intrinsics of [<x86intrin.h>] that the file uses.  A lane holds a
    64-bit pattern; [int64_t] and [int] arguments are stored by their
    two's complement pattern. *)
Definition _mm_set_epi64x (e1 e0 : Z) : m128i := M128 (u64 e0) (u64 e1).

Definition _mm_set1_epi32 (a : Z) : m128i :=
  let d := u32 a in
  let q := d .| shl64 d 32 in
  M128 q q.

Definition _mm_setzero_si128 : m128i := M128 0 0.

Definition _mm_and_si128 (a b : m128i) : m128i :=
  M128 (lane0 a .& lane0 b) (lane1 a .& lane1 b).

Definition _mm_or_si128 (a b : m128i) : m128i :=
  M128 (lane0 a .| lane0 b) (lane1 a .| lane1 b).

Definition _mm_slli_epi64 (a : m128i) (k : Z) : m128i :=
  M128 (shl64 (lane0 a) k) (shl64 (lane1 a) k).

Definition _mm_srli_epi64 (a : m128i) (k : Z) : m128i :=
  M128 (lane0 a >> k) (lane1 a >> k).

Definition _mm_unpackhi_epi64 (a b : m128i) : m128i :=
  M128 (lane1 a) (lane1 b).

Definition _mm_cvtsi128_si64 (a : m128i) : Z := to_int64 (lane0 a).

(** The four 32-bit elements of a register, and [_mm_shuffle_epi32]:
    element [k] of the result is the element of [a] selected by bits
    [2k+1 : 2k] of [imm]. *)
Definition epi32 (a : m128i) (k : Z) : Z :=
  if k =? 0 then u32 (lane0 a)
  else if k =? 1 then lane0 a >> 32
  else if k =? 2 then u32 (lane1 a)
  else lane1 a >> 32.

Definition _mm_shuffle_epi32 (a : m128i) (imm : Z) : m128i :=
  let sel (k : Z) := epi32 a ((imm >> (2 * k)) .& 3) in
  M128 (sel 0 .| shl64 (sel 1) 32) (sel 2 .| shl64 (sel 3) 32).

(** [inline uint64_t mortonIndex(__m128i xy)] *)
Definition mortonIndex_m128i (xy : m128i) : Z :=
  let xy := _mm_and_si128 (_mm_or_si128 xy (_mm_slli_epi64 xy 16))
                          (_mm_set1_epi32 0x0000ffff) in
  let xy := _mm_and_si128 (_mm_or_si128 xy (_mm_slli_epi64 xy 8))
                          (_mm_set1_epi32 0x00ff00ff) in
  let xy := _mm_and_si128 (_mm_or_si128 xy (_mm_slli_epi64 xy 4))
                          (_mm_set1_epi32 0x0f0f0f0f) in
  let xy := _mm_and_si128 (_mm_or_si128 xy (_mm_slli_epi64 xy 2))
                          (_mm_set1_epi32 0x33333333) in
  let xy := _mm_and_si128 (_mm_or_si128 xy (_mm_slli_epi64 xy 1))
                          (_mm_set1_epi32 0x55555555) in
  let y := _mm_unpackhi_epi64 xy _mm_setzero_si128 in
  let r := _mm_or_si128 xy (_mm_slli_epi64 y 1) in
  u64 (_mm_cvtsi128_si64 r).

(** [inline uint64_t mortonIndex(uint32_t x, uint32_t y)], SSE2 version. *)
Definition mortonIndex_simd (x y : Z) : Z :=
  let xy := _mm_set_epi64x (to_int64 y) (to_int64 x) in
  mortonIndex_m128i xy.

(** [inline __m128i mortonIndexInverseSimd(uint64_t z)] *)
Definition mortonIndexInverseSimd (z : Z) : m128i :=
  let xy := _mm_set_epi64x (to_int64 (z >> 1)) (to_int64 z) in
  let xy := _mm_and_si128 xy (_mm_set1_epi32 0x55555555) in
  let xy := _mm_and_si128 (_mm_or_si128 xy (_mm_srli_epi64 xy 1))
                          (_mm_set1_epi32 0x33333333) in
  let xy := _mm_and_si128 (_mm_or_si128 xy (_mm_srli_epi64 xy 2))
                          (_mm_set1_epi32 0x0f0f0f0f) in
  let xy := _mm_and_si128 (_mm_or_si128 xy (_mm_srli_epi64 xy 4))
                          (_mm_set1_epi32 0x00ff00ff) in
  let xy := _mm_and_si128 (_mm_or_si128 xy (_mm_srli_epi64 xy 8))
                          (_mm_set1_epi32 0x0000ffff) in
  let xy := _mm_or_si128 xy (_mm_srli_epi64 xy 16) in
  xy.

(** [inline std::tuple<uint32_t, uint32_t> mortonIndexInverse(uint64_t z)],
    SSE2 version. *)
Definition mortonIndexInverse_simd (z : Z) : Z * Z :=
  let xy := mortonIndexInverseSimd z in
  let r := u64 (_mm_cvtsi128_si64 (_mm_shuffle_epi32 xy 8)) in
  (u32 (r .& 0xffffffff), u32 (r >> 32)).

(** ** The reference loop, run on the inverse table

    The loop of the header comment with [HILBERT_INVERSE_LUT_1] in place of
    [HILBERT_LUT_1]: the only use that the constant can have. *)
Definition hilbertToMorton_ref (h m : Z) : Z :=
  ls_out (lut1_loop HILBERT_INVERSE_LUT_1 (Z.to_nat (2 * m)) h
            (LoopState (2 * m) 0 0)).


(** Manhattan distance of two grid cells. *)
Definition manhattan (p q : Z * Z) : Z :=
  Z.abs (fst p - fst q) + Z.abs (snd p - snd q).
(** * Proofs *)

(** ** Ranges and bits *)

Lemma range_forallb (f : Z -> bool) (n : nat) :
  forallb f (range n) = true ->
  forall i, 0 <= i < Z.of_nat n -> f i = true.
Proof.
  unfold range. rewrite forallb_forall. intros H i Hi.
  apply H. apply in_map_iff. exists (Z.to_nat i). split; [lia|].
  apply in_seq. lia.
Qed.

Lemma testbit_high (a n i : Z) :
  0 <= a < 2 ^ n -> 0 <= n <= i -> Z.testbit a i = false.
Proof.
  intros Ha Hi. rewrite <- (Z.mod_small a (2 ^ n)) by assumption.
  apply Z.mod_pow2_bits_high. lia.
Qed.

Lemma testbit_u64 (a i : Z) :
  Z.testbit (u64 a) i = (i <? 64) && Z.testbit a i.
Proof.
  unfold u64. destruct (Z.ltb_spec i 64).
  - destruct (Z.le_gt_cases 0 i).
    + now rewrite Z.mod_pow2_bits_low.
    + now rewrite !Z.testbit_neg_r by lia.
  - now rewrite Z.mod_pow2_bits_high by lia.
Qed.

Lemma testbit_u32 (a i : Z) :
  Z.testbit (u32 a) i = (i <? 32) && Z.testbit a i.
Proof.
  unfold u32. destruct (Z.ltb_spec i 32).
  - destruct (Z.le_gt_cases 0 i).
    + now rewrite Z.mod_pow2_bits_low.
    + now rewrite !Z.testbit_neg_r by lia.
  - now rewrite Z.mod_pow2_bits_high by lia.
Qed.

Lemma testbit_shl64 (a k i : Z) :
  0 <= k ->
  Z.testbit (shl64 a k) i = (k <=? i) && (i <? 64) && Z.testbit a (i - k).
Proof.
  intros Hk. unfold shl64. rewrite testbit_u64.
  destruct (Z.leb_spec k i); simpl.
  - now rewrite Z.shiftl_spec by lia.
  - destruct (Z.le_gt_cases 0 i).
    + rewrite Z.shiftl_spec by lia. rewrite Z.testbit_neg_r by lia. btauto.
    + rewrite Z.testbit_neg_r by lia. btauto.
Qed.

Lemma u64_range (a : Z) : 0 <= u64 a < 2 ^ 64.
Proof. unfold u64. apply Z.mod_pos_bound. lia. Qed.

Lemma u32_range (a : Z) : 0 <= u32 a < 2 ^ 32.
Proof. unfold u32. apply Z.mod_pos_bound. lia. Qed.

Lemma u64_small (a : Z) : 0 <= a < 2 ^ 64 -> u64 a = a.
Proof. apply Z.mod_small. Qed.

Lemma land_range (a c n : Z) :
  0 <= c < 2 ^ n -> 0 <= a -> 0 <= a .& c < 2 ^ n.
Proof.
  intros Hc Ha. split; [apply Z.land_nonneg; lia|].
  destruct (Z.eq_dec (a .& c) 0) as [->|Hnz]; [lia|].
  assert (0 < a .& c) by (pose proof (Z.land_nonneg a c); lia).
  assert (0 < c) by (destruct (Z.eq_dec c 0) as [->|]; [rewrite Z.land_0_r in *|]; lia).
  apply Z.log2_lt_pow2; [lia|].
  assert (Z.log2 (a .& c) <= Z.log2 c).
  { eapply Z.le_trans; [apply Z.log2_land; lia|]. apply Z.le_min_r. }
  assert (Z.log2 c < n) by (apply Z.log2_lt_pow2; lia). lia.
Qed.

Lemma lor_range (a b n : Z) :
  0 <= a < 2 ^ n -> 0 <= b < 2 ^ n -> 0 <= a .| b < 2 ^ n.
Proof.
  intros Ha Hb. split; [apply Z.lor_nonneg; lia|].
  destruct (Z.eq_dec (a .| b) 0) as [->|Hnz]; [lia|].
  assert (0 < a .| b) by (pose proof (proj2 (Z.lor_nonneg a b)); lia).
  apply Z.log2_lt_pow2; [lia|]. rewrite Z.log2_lor by lia.
  destruct (Z.eq_dec a 0) as [->|]; destruct (Z.eq_dec b 0) as [->|];
    try (rewrite ?Z.lor_0_l, ?Z.lor_0_r in *; lia).
  - simpl Z.log2 at 1. rewrite Z.max_r by apply Z.log2_nonneg.
    apply Z.log2_lt_pow2; lia.
  - simpl Z.log2 at 2. rewrite Z.max_l by apply Z.log2_nonneg.
    apply Z.log2_lt_pow2; lia.
  - apply Z.max_lub_lt; apply Z.log2_lt_pow2; lia.
Qed.

(** Two words below [2^n] with the same bits below [n] are equal. *)
Lemma bits_inj_below (a b n : Z) :
  0 <= n -> 0 <= a < 2 ^ n -> 0 <= b < 2 ^ n ->
  (forall i, 0 <= i < n -> Z.testbit a i = Z.testbit b i) -> a = b.
Proof.
  intros Hn Ha Hb H. apply Z.bits_inj'. intros i Hi.
  destruct (Z.lt_ge_cases i n).
  - apply H. lia.
  - rewrite (testbit_high a n), (testbit_high b n) by lia. reflexivity.
Qed.

(** ** Shift-or-mask networks *)

Section Networks.

Variable w : Z.

Lemma src_sound (e : bexp) :
  bwf e = true ->
  forall i, 0 <= i -> Z.testbit (eval e w) i = existsb (Z.testbit w) (src e i).
Proof.
  induction e as [|e IH c|e1 IH1 e2 IH2|e IH k|e IH k|e IH]; simpl; intros Hwf i Hi.
  - now rewrite orb_false_r.
  - rewrite Z.land_spec, IH by assumption.
    destruct (Z.testbit c i); simpl; [apply andb_true_r | apply andb_false_r].
  - apply andb_prop in Hwf as [H1 H2].
    now rewrite Z.lor_spec, existsb_app, IH1, IH2.
  - apply andb_prop in Hwf as [Hk He]. apply Z.leb_le in Hk.
    rewrite testbit_shl64 by assumption.
    destruct ((k <=? i) && (i <? 64)) eqn:E; [|reflexivity].
    apply andb_prop in E as [E _]. apply Z.leb_le in E.
    simpl. apply IH; [assumption | lia].
  - apply andb_prop in Hwf as [Hk He]. apply Z.leb_le in Hk.
    rewrite Z.shiftr_spec by assumption. apply IH; [assumption | lia].
  - rewrite testbit_u32. destruct (i <? 32); [|reflexivity].
    simpl. now apply IH.
Qed.

(** When the input has [n] bits, a list of sources accepted by [only_src]
    reads one bit of the input, or none. *)
Lemma only_src_sound (n t : Z) (want : bool) (l : list Z) :
  0 <= n -> 0 <= w < 2 ^ n ->
  only_src n t want l = true ->
  existsb (Z.testbit w) l = want && Z.testbit w t.
Proof.
  intros Hn Hw H. apply andb_prop in H as [Hall Hw'].
  rewrite forallb_forall in Hall.
  assert (Hle : existsb (Z.testbit w) l = true -> Z.testbit w t = true).
  { rewrite existsb_exists. intros (j & Hj & Hb).
    specialize (Hall j Hj). apply orb_prop in Hall as [E|E].
    - apply Z.eqb_eq in E. now subst.
    - apply Z.leb_le in E. rewrite (testbit_high w n j) in Hb by lia.
      discriminate. }
  destruct want; simpl.
  - destruct (Z.testbit w t) eqn:Et.
    + apply existsb_exists in Hw' as (j & Hj & E). apply Z.eqb_eq in E. subst j.
      apply existsb_exists. now exists t.
    + destruct (existsb (Z.testbit w) l); [symmetry; now apply Hle | reflexivity].
  - destruct (existsb (Z.testbit w) l) eqn:E; [|reflexivity].
    apply existsb_exists in E as (j & Hj & Hb).
    rewrite forallb_forall in Hw'. specialize (Hw' j Hj). apply Z.leb_le in Hw'.
    rewrite (testbit_high w n j) in Hb by lia. discriminate.
Qed.

Lemma one_src_sound (t : Z) (l : list Z) :
  one_src t l = true -> existsb (Z.testbit w) l = Z.testbit w t.
Proof.
  destruct l as [|j [|? ?]]; try discriminate. cbn [one_src existsb].
  intros E. apply Z.eqb_eq in E. subst j. apply orb_false_r.
Qed.

End Networks.

(** ** Morton order *)

Lemma spread_eval (a : Z) : spread a = eval spread_net a.
Proof. reflexivity. Qed.

Lemma mortonIndex_spread (x y : Z) :
  mortonIndex x y = spread x .| shl64 (spread y) 1.
Proof. reflexivity. Qed.

Lemma squeeze_eval_x (z : Z) : fst (mortonIndexInverse z) = eval inverse_x_net z.
Proof. reflexivity. Qed.

Lemma squeeze_eval_y (z : Z) : snd (mortonIndexInverse z) = eval inverse_y_net z.
Proof. reflexivity. Qed.

Lemma spread_range (a : Z) : 0 <= a -> 0 <= spread a < 2 ^ 63.
Proof.
  intros Ha. unfold spread. apply land_range; [lia|].
  apply Z.lor_nonneg. split; [|apply u64_range].
  apply Z.land_nonneg. right. lia.
Qed.

(** Bit [i] of [spread a] is bit [i/2] of [a] when [i] is even, and 0 when
    [i] is odd. *)
Lemma spread_bit (a i : Z) :
  0 <= a < 2 ^ 32 -> 0 <= i ->
  Z.testbit (spread a) i = Z.even i && Z.testbit a (i / 2).
Proof.
  intros Ha Hi. destruct (Z.lt_ge_cases i 64) as [Hlt|Hge].
  - rewrite spread_eval, src_sound by (reflexivity || assumption).
    apply (only_src_sound a 32); [lia | assumption |].
    revert i Hi Hlt.
    assert (H : forallb (fun i => only_src 32 (i / 2) (Z.even i) (src spread_net i))
                  (range 64) = true) by (vm_compute; reflexivity).
    intros i Hi Hlt. apply (range_forallb _ _ H). simpl. lia.
  - rewrite (testbit_high (spread a) 64 i); [| pose proof (spread_range a); lia | lia].
    rewrite (testbit_high a 32 (i / 2)); [btauto | lia |].
    split; [lia|]. apply Z.div_le_lower_bound; lia.
Qed.

Lemma mortonIndex_range (x y : Z) : 0 <= x -> 0 <= mortonIndex x y < 2 ^ 64.
Proof.
  intros Hx. rewrite mortonIndex_spread. apply lor_range.
  - pose proof (spread_range x Hx). lia.
  - apply u64_range.
Qed.

Lemma mortonIndex_even_bit (x y i : Z) :
  0 <= x < 2 ^ 32 -> 0 <= y < 2 ^ 32 -> 0 <= i ->
  Z.testbit (mortonIndex x y) (2 * i) = Z.testbit x i.
Proof.
  intros Hx Hy Hi. rewrite mortonIndex_spread.
  rewrite Z.lor_spec, testbit_shl64 by lia.
  rewrite (spread_bit x) by lia.
  assert (E2 : Z.even (2 * i) = true) by (rewrite Z.even_mul; reflexivity).
  rewrite E2, (Z.mul_comm 2 i), Z.div_mul by lia. cbn [andb].
  destruct (Z.leb_spec 1 (i * 2)) as [Hle|Hgt]; [|cbn [andb]; btauto].
  rewrite spread_bit by lia.
  replace (i * 2 - 1) with (1 + 2 * (i - 1)) by lia.
  rewrite Z.even_add_mul_2. cbn [Z.even andb]. btauto.
Qed.

Lemma mortonIndex_odd_bit (x y i : Z) :
  0 <= x < 2 ^ 32 -> 0 <= y < 2 ^ 32 -> 0 <= i ->
  Z.testbit (mortonIndex x y) (2 * i + 1) = Z.testbit y i.
Proof.
  intros Hx Hy Hi. rewrite mortonIndex_spread.
  rewrite Z.lor_spec, testbit_shl64 by lia.
  rewrite !spread_bit by lia.
  replace (2 * i + 1 - 1) with (i * 2) by lia.
  assert (E1 : Z.even (2 * i + 1) = false)
    by (rewrite Z.even_add, Z.even_mul; reflexivity).
  assert (E2 : Z.even (i * 2) = true)
    by (rewrite Z.even_mul; apply orb_true_r).
  rewrite E1, E2, Z.div_mul by lia. cbn [andb orb].
  destruct (Z.ltb_spec (2 * i + 1) 64).
  - replace (1 <=? 2 * i + 1) with true by (symmetry; apply Z.leb_le; lia).
    reflexivity.
  - rewrite (testbit_high y 32 i) by lia. btauto.
Qed.

Lemma inverse_x_bit (z i : Z) :
  0 <= i ->
  Z.testbit (fst (mortonIndexInverse z)) i = (i <? 32) && Z.testbit z (2 * i).
Proof.
  intros Hi. destruct (Z.ltb_spec i 32) as [Hlt|Hge].
  - rewrite squeeze_eval_x, src_sound by (reflexivity || assumption).
    assert (H : forallb (fun i => one_src (2 * i) (src inverse_x_net i))
                  (range 32) = true) by (vm_compute; reflexivity).
    apply one_src_sound, (range_forallb _ _ H). simpl Z.of_nat. lia.
  - apply (testbit_high _ 32); [apply u32_range | lia].
Qed.

Lemma inverse_y_bit (z i : Z) :
  0 <= i ->
  Z.testbit (snd (mortonIndexInverse z)) i = (i <? 32) && Z.testbit z (2 * i + 1).
Proof.
  intros Hi. destruct (Z.ltb_spec i 32) as [Hlt|Hge].
  - rewrite squeeze_eval_y, src_sound by (reflexivity || assumption).
    assert (H : forallb (fun i => one_src (2 * i + 1) (src inverse_y_net i))
                  (range 32) = true) by (vm_compute; reflexivity).
    apply one_src_sound, (range_forallb _ _ H). simpl Z.of_nat. lia.
  - apply (testbit_high _ 32); [apply u32_range | lia].
Qed.

Lemma mortonIndexInverse_range (z : Z) :
  0 <= fst (mortonIndexInverse z) < 2 ^ 32 /\
  0 <= snd (mortonIndexInverse z) < 2 ^ 32.
Proof. split; apply u32_range. Qed.

Lemma mortonIndexInverse_mortonIndex (x y : Z) :
  0 <= x < 2 ^ 32 -> 0 <= y < 2 ^ 32 ->
  mortonIndexInverse (mortonIndex x y) = (x, y).
Proof.
  intros Hx Hy.
  rewrite (surjective_pairing (mortonIndexInverse (mortonIndex x y))).
  f_equal.
  - apply (bits_inj_below _ _ 32); [lia | apply u32_range | assumption |].
    intros i Hi. rewrite inverse_x_bit, mortonIndex_even_bit by lia.
    replace (i <? 32) with true by (symmetry; apply Z.ltb_lt; lia). reflexivity.
  - apply (bits_inj_below _ _ 32); [lia | apply u32_range | assumption |].
    intros i Hi. rewrite inverse_y_bit, mortonIndex_odd_bit by lia.
    replace (i <? 32) with true by (symmetry; apply Z.ltb_lt; lia). reflexivity.
Qed.

Lemma mortonIndex_mortonIndexInverse (z : Z) :
  0 <= z < 2 ^ 64 ->
  mortonIndex (fst (mortonIndexInverse z)) (snd (mortonIndexInverse z)) = z.
Proof.
  intros Hz. pose proof (mortonIndexInverse_range z) as [Hx Hy].
  apply (bits_inj_below _ _ 64); [lia | apply mortonIndex_range; lia | assumption |].
  intros i Hi. destruct (Z.even i) eqn:E.
  - apply Z.even_spec in E as [k ->].
    rewrite mortonIndex_even_bit, inverse_x_bit by lia.
    replace (k <? 32) with true by (symmetry; apply Z.ltb_lt; lia). reflexivity.
  - rewrite <- Z.negb_odd in E. apply negb_false_iff, Z.odd_spec in E as [k ->].
    rewrite mortonIndex_odd_bit, inverse_y_bit by lia.
    replace (k <? 32) with true by (symmetry; apply Z.ltb_lt; lia). reflexivity.
Qed.

(** ** [log2] *)

Lemma filled_init (x : Z) : 0 < x -> filled (Z.log2 x) 1 x.
Proof.
  intros Hx. pose proof (Z.log2_spec x Hx) as Hs. split.
  - rewrite Z.add_1_r. lia.
  - intros n Hn Hk. replace n with (Z.log2 x) by lia. now apply Z.bit_log2.
Qed.

Lemma filled_step (k w a : Z) :
  0 <= k -> 0 < w -> filled k w a -> filled k (2 * w) (a .| (a >> w)).
Proof.
  intros Hk Hw [Ha Hb]. split.
  - apply lor_range; [assumption|].
    rewrite Z.shiftr_div_pow2 by lia. split.
    + apply Z.div_pos; lia.
    + apply Z.le_lt_trans with a; [|lia].
      apply Z.div_le_upper_bound; [lia|]. 
      assert (1 <= 2 ^ w) by (apply Z.pow_le_mono_r with (b := 0); lia). nia.
  - intros n Hn Hr. rewrite Z.lor_spec, Z.shiftr_spec by assumption.
    destruct (Z.lt_ge_cases (k - w) n).
    + rewrite Hb by lia. reflexivity.
    + rewrite (Hb (n + w)) by lia. apply orb_true_r.
Qed.

Lemma filled_ones (k w a : Z) :
  0 <= k < w -> filled k w a -> a = Z.ones (k + 1).
Proof.
  intros Hk [Ha Hb]. apply (bits_inj_below _ _ (k + 1)); [lia | assumption | |].
  - rewrite Z.ones_equiv. lia.
  - intros i Hi. rewrite Hb by lia. rewrite Z.ones_spec_low by lia. reflexivity.
Qed.

Lemma ones_shiftr_1 (k : Z) : 0 <= k -> Z.ones (k + 1) >> 1 = Z.ones k.
Proof.
  intros Hk. rewrite Z.shiftr_div_pow2, !Z.ones_equiv, Z.pow_add_r by lia.
  change (2 ^ 1) with 2. symmetry. apply (Z.div_unique _ _ _ 1); lia.
Qed.

Lemma hash_64 (k : Z) :
  0 <= k < 64 ->
  tbl Log2.PERFECT_HASH_TABLE_64 (mul64 Log2.DE_BRUIJN_SEQUENCE_64 (2 ^ k) >> 58) = k.
Proof.
  assert (H : forallb
                (fun k => tbl Log2.PERFECT_HASH_TABLE_64
                            (mul64 Log2.DE_BRUIJN_SEQUENCE_64 (2 ^ k) >> 58) =? k)
                (range 64) = true) by (vm_compute; reflexivity).
  intros Hk. apply Z.eqb_eq. apply (range_forallb _ _ H). simpl Z.of_nat. lia.
Qed.

Lemma hash_32 (k : Z) :
  0 <= k < 32 ->
  tbl Log2.PERFECT_HASH_TABLE_32
    (mul32 Log2.DE_BRUIJN_SEQUENCE_32 (Z.ones (k + 1)) >> 27) = k.
Proof.
  assert (H : forallb
                (fun k => tbl Log2.PERFECT_HASH_TABLE_32
                            (mul32 Log2.DE_BRUIJN_SEQUENCE_32 (Z.ones (k + 1)) >> 27) =? k)
                (range 32) = true) by (vm_compute; reflexivity).
  intros Hk. apply Z.eqb_eq. apply (range_forallb _ _ H). simpl Z.of_nat. lia.
Qed.

Lemma log2_bound (x n : Z) : 0 < x < 2 ^ n -> 0 <= Z.log2 x < n.
Proof.
  intros Hx. split; [apply Z.log2_nonneg|]. apply Z.log2_lt_pow2; lia.
Qed.

Lemma log2_64_log2 (x : Z) : 0 < x < 2 ^ 64 -> Log2.log2_64 x = Z.log2 x.
Proof.
  intros Hx. pose proof (log2_bound x 64 Hx) as Hk.
  pose proof (filled_init x ltac:(lia)) as F.
  do 6 (apply filled_step in F; [|lia|lia]). simpl Z.mul in F.
  apply filled_ones in F; [|lia].
  unfold Log2.log2_64. cbv zeta. rewrite F, ones_shiftr_1 by lia.
  replace (sub64 (Z.ones (Z.log2 x + 1)) (Z.ones (Z.log2 x))) with (2 ^ Z.log2 x).
  - apply hash_64. assumption.
  - unfold sub64. rewrite !Z.ones_equiv, Z.pow_add_r by lia.
    rewrite u64_small; [lia|].
    assert (2 ^ Z.log2 x < 2 ^ 64) by (apply Z.pow_lt_mono_r; lia). lia.
Qed.

Lemma log2_32_log2 (x : Z) : 0 < x < 2 ^ 32 -> Log2.log2_32 x = Z.log2 x.
Proof.
  intros Hx. pose proof (log2_bound x 32 Hx) as Hk.
  pose proof (filled_init x ltac:(lia)) as F.
  do 5 (apply filled_step in F; [|lia|lia]). simpl Z.mul in F.
  apply filled_ones in F; [|lia].
  unfold Log2.log2_32. cbv zeta. rewrite F. apply hash_32. assumption.
Qed.

Lemma log2_is_msb_index (x : Z) : 0 < x -> is_msb_index x (Z.log2 x).
Proof.
  intros Hx. split; [apply Z.log2_nonneg|]. split.
  - now apply Z.bit_log2.
  - intros j Hj. now apply Z.bits_above_log2; [lia|].
Qed.

(** ** The Hilbert transducer *)

Lemma range_forallb2 (f : Z -> Z -> bool) (n m : nat) :
  forallb (fun a => forallb (f a) (range m)) (range n) = true ->
  forall a b, 0 <= a < Z.of_nat n -> 0 <= b < Z.of_nat m -> f a b = true.
Proof.
  intros H a b Ha Hb.
  apply (range_forallb (f a) m); [|assumption].
  apply (range_forallb (fun a => forallb (f a) (range m)) n H a Ha).
Qed.

Lemma pow4_pos (k : nat) : 0 < 4 ^ Z.of_nat k.
Proof. apply Z.pow_pos_nonneg; lia. Qed.

Lemma pow4_S (k : nat) : 4 ^ Z.of_nat (S k) = 4 * 4 ^ Z.of_nat k.
Proof. rewrite Nat2Z.inj_succ, Z.pow_succ_r by lia. reflexivity. Qed.

Lemma pow4_pow2 (k : nat) : 4 ^ Z.of_nat k = 2 ^ (2 * Z.of_nat k).
Proof. rewrite Z.pow_mul_r by lia. reflexivity. Qed.

Lemma land_3_range (a : Z) : 0 <= a .& 3 < 4.
Proof.
  change 3 with (Z.ones 2). rewrite Z.land_ones by lia.
  apply Z.mod_pos_bound. lia.
Qed.

Lemma digit_range (w : Z) (k : nat) : 0 <= digit w k < 4.
Proof. apply land_3_range. Qed.

Lemma digit_div_mod (w : Z) (k : nat) : digit w k = (w / 4 ^ Z.of_nat k) mod 4.
Proof.
  unfold digit. change 3 with (Z.ones 2).
  rewrite Z.land_ones, Z.shiftr_div_pow2, pow4_pow2 by lia. reflexivity.
Qed.

(** The bit pairs below [n] do not see what lies above. *)
Lemma digit_mod (w : Z) (n k : nat) :
  (k < n)%nat -> digit (w mod 4 ^ Z.of_nat n) k = digit w k.
Proof.
  intros Hk. rewrite !digit_div_mod.
  replace (Z.of_nat n) with (Z.of_nat k + (1 + Z.of_nat (n - S k))) by lia.
  rewrite Z.pow_add_r, Z.rem_mul_r by (try apply Z.pow_nonneg; try apply Z.pow_pos_nonneg; lia).
  rewrite (Z.mul_comm (4 ^ Z.of_nat k)), Z.div_add by (pose proof (pow4_pos k); lia).
  rewrite Z.div_small by (apply Z.mod_pos_bound, pow4_pos).
  rewrite Z.add_0_l, Z.pow_add_r by lia. change (4 ^ 1) with 4.
  rewrite Z.rem_mul_r by (try apply Z.pow_pos_nonneg; lia).
  rewrite Z.mul_comm, Z.mod_add by lia. apply Z.mod_mod. lia.
Qed.

Lemma digit_shiftr (w : Z) (b k : nat) :
  digit (w >> (2 * Z.of_nat b)) k = digit w (k + b).
Proof.
  unfold digit. rewrite Z.shiftr_shiftr by lia. do 2 f_equal. lia.
Qed.

(** [w mod 4^(k+1)] is bit pair [k] followed by [w mod 4^k]. *)
Lemma mod_pow4_S (w : Z) (k : nat) :
  w mod 4 ^ Z.of_nat (S k) = digit w k * 4 ^ Z.of_nat k + w mod 4 ^ Z.of_nat k.
Proof.
  rewrite digit_div_mod, pow4_S, (Z.mul_comm 4).
  rewrite Z.rem_mul_r by (pose proof (pow4_pos k); lia). lia.
Qed.

Lemma lut1_range (L s d : Z) : 0 <= L -> 0 <= lut1 L s d < 16.
Proof.
  intros HL. unfold lut1. apply (land_range _ 15 4); [lia|].
  apply Z.shiftr_nonneg. assumption.
Qed.

Lemma lut1_state_range (L s d : Z) : 0 <= lut1 L s d >> 2 < 4.
Proof.
  unfold lut1. rewrite Z.shiftr_land. change (15 >> 2) with 3. apply land_3_range.
Qed.

Section Run.

Variable L : Z.

Lemma run_range (n : nat) (s w : Z) :
  0 <= fst (run L n s w) < 4 ^ Z.of_nat n.
Proof.
  revert s. induction n as [|k IH]; intros s.
  - simpl. lia.
  - cbn [run]. specialize (IH (lut1 L s (digit w k) >> 2)).
    destruct (run L k (lut1 L s (digit w k) >> 2) w) as [o s'].
    cbn [fst] in *. rewrite pow4_S.
    pose proof (land_3_range (lut1 L s (digit w k))). nia.
Qed.

Lemma run_state_range (n : nat) (s w : Z) :
  0 <= s < 4 -> 0 <= snd (run L n s w) < 4.
Proof.
  revert s. induction n as [|k IH]; intros s Hs.
  - assumption.
  - cbn [run]. specialize (IH (lut1 L s (digit w k) >> 2) (lut1_state_range _ _ _)).
    destruct (run L k (lut1 L s (digit w k) >> 2) w) as [o s']. assumption.
Qed.

(** [run] reads only the [n] low bit pairs of its input. *)
Lemma run_ext (n : nat) (s w w' : Z) :
  (forall k, (k < n)%nat -> digit w k = digit w' k) ->
  run L n s w = run L n s w'.
Proof.
  revert s. induction n as [|k IH]; intros s H; [reflexivity|].
  cbn [run]. rewrite (H k) by lia. rewrite IH; [reflexivity|].
  intros j Hj. apply H. lia.
Qed.

Lemma run_mod (n : nat) (s w : Z) :
  run L n s (w mod 4 ^ Z.of_nat n) = run L n s w.
Proof. apply run_ext. intros k Hk. now apply digit_mod. Qed.

(** Reading [a + b] bit pairs is reading the [a] high ones, then the [b]
    low ones from the state reached. *)
Lemma run_app (a b : nat) (s w : Z) :
  run L (a + b) s w =
  let (o1, s1) := run L a s (w >> (2 * Z.of_nat b)) in
  let (o2, s2) := run L b s1 w in
  (o1 * 4 ^ Z.of_nat b + o2, s2).
Proof.
  revert s. induction a as [|k IH]; intros s.
  - cbn [run Nat.add]. destruct (run L b s w). reflexivity.
  - cbn [run Nat.add]. rewrite digit_shiftr. rewrite IH.
    destruct (run L k (lut1 L s (digit w (k + b)) >> 2) (w >> (2 * Z.of_nat b)))
      as [o1 s1].
    destruct (run L b s1 w) as [o2 s2]. f_equal.
    rewrite Nat2Z.inj_add, Z.pow_add_r by lia. ring.
Qed.

End Run.

Lemma lor_shiftl_add (a c k : Z) :
  0 <= k -> 0 <= c < 2 ^ k -> Z.shiftl a k .| c = a * 2 ^ k + c.
Proof.
  intros Hk Hc. rewrite <- Z.shiftl_mul_pow2 by assumption.
  rewrite <- Z.lxor_lor, <- Z.add_nocarry_lxor; try reflexivity;
    apply Z.bits_inj'; intros i Hi; rewrite Z.land_spec, Z.bits_0;
    (destruct (Z.lt_ge_cases i k);
     [rewrite Z.shiftl_spec_low by assumption; reflexivity
     |rewrite (testbit_high c k i) by lia; apply andb_false_r]).
Qed.

Lemma shl64_lor_add (h c k n : Z) :
  0 <= k -> 0 <= c < 2 ^ k -> 0 <= h < 2 ^ n -> 0 <= n -> n + k <= 64 ->
  shl64 h k .| c = h * 2 ^ k + c.
Proof.
  intros Hk Hc Hh Hn Hnk. unfold shl64. rewrite u64_small.
  - now apply lor_shiftl_add.
  - rewrite Z.shiftl_mul_pow2 by assumption.
    assert (2 ^ (n + k) <= 2 ^ 64) by (apply Z.pow_le_mono_r; lia).
    rewrite Z.pow_add_r in * by lia. nia.
Qed.

Lemma lut1_out (L s d : Z) : lut1 L s d .& 3 = (L >> (4 * (4 * s + d))) .& 3.
Proof. unfold lut1. now rewrite <- Z.land_assoc. Qed.

Lemma lut1_next (L s d : Z) :
  lut1 L s d >> 2 = ((L >> (4 * (4 * s + d))) .& 0xc) >> 2.
Proof. unfold lut1. now rewrite !Z.shiftr_land. Qed.

Lemma lut1_index (i d : Z) :
  0 <= i -> 0 <= d < 4 ->
  mul64 ((i .& 0xc) .| d) 4 = 4 * (4 * ((i .& 0xc) >> 2) + d).
Proof.
  intros Hi Hd.
  replace (i .& 0xc) with ((i .& 0xf) .& 0xc) by now rewrite <- Z.land_assoc.
  apply Z.eqb_eq.
  assert (H : lut1_index_ok = true) by (vm_compute; reflexivity).
  apply (range_forallb2 _ _ _ H); simpl Z.of_nat; [|assumption].
  apply (land_range _ 15 4); lia.
Qed.

(** *** The one-bit-pair loop computes [run] *)

Section Lut1Loop.

Variables (L z : Z).
Hypothesis L_nonneg : 0 <= L.

Lemma lut1_loop_run (n : nat) :
  forall (fuel p : nat) (h i : Z),
    (n <= fuel)%nat -> (p + n <= 32)%nat -> 0 <= h < 4 ^ Z.of_nat p -> 0 <= i ->
    ls_out (lut1_loop L fuel z (LoopState (2 * Z.of_nat n) h i)) =
    h * 4 ^ Z.of_nat n + fst (run L n ((i .& 0xc) >> 2) z).
Proof.
  induction n as [|k IH]; intros fuel p h i Hf Hp Hh Hi.
  - destruct fuel; simpl; lia.
  - destruct fuel as [|fuel]; [lia|]. cbn [lut1_loop ls_m ls_out ls_i].
    replace (2 * Z.of_nat (S k) =? 0) with false by (symmetry; apply Z.eqb_neq; lia).
    cbn [negb]. replace (2 * Z.of_nat (S k) - 2) with (2 * Z.of_nat k) by lia.
    fold (digit z k). rewrite lut1_index by (assumption || apply digit_range).
    set (s := (i .& 0xc) >> 2). set (X := L >> (4 * (4 * s + digit z k))).
    assert (Hh2 : shl64 h 2 .| (X .& 3) = h * 4 + X .& 3).
    { change 4 with (2 ^ 2) at 1.
      apply (shl64_lor_add _ _ _ (2 * Z.of_nat p)); try lia.
      - apply land_3_range.
      - now rewrite <- pow4_pow2. }
    rewrite Hh2. pose proof (land_3_range X) as HX.
    rewrite (IH fuel (S p)); try lia.
    + cbn [run]. rewrite lut1_next, lut1_out. fold s X.
      destruct (run L k ((X .& 0xc) >> 2) z) as [o s']. cbn [fst].
      rewrite pow4_S. ring.
    + rewrite pow4_S. lia.
    + apply Z.shiftr_nonneg. assumption.
Qed.

End Lut1Loop.

Lemma mortonToHilbert_ref_run (z m : Z) :
  0 <= m <= 32 ->
  mortonToHilbert_ref z m = fst (run HILBERT_LUT_1 (Z.to_nat m) 0 z).
Proof.
  intros Hm. unfold mortonToHilbert_ref.
  replace (2 * m) with (2 * Z.of_nat (Z.to_nat m)) at 2 by lia.
  assert (HL : 0 <= HILBERT_LUT_1) by (unfold HILBERT_LUT_1; lia).
  rewrite (lut1_loop_run _ _ HL _ _ 0%nat) by lia.
  reflexivity.
Qed.

(** *** The table-driven loop computes [run] *)

Lemma land_63_mod (a : Z) : a .& 0x3f = a mod 4 ^ Z.of_nat 3.
Proof. change 63 with (Z.ones 6). now rewrite Z.land_ones by lia. Qed.

Lemma pow64_pow4 (q : nat) : 64 ^ Z.of_nat q = 4 ^ Z.of_nat (3 * q).
Proof.
  rewrite Nat2Z.inj_mul, Z.pow_mul_r by lia. reflexivity.
Qed.

Section Unrolled.

Variables (T : list Z) (L w : Z).
Hypothesis T_unrolled : unrolled T L = true.

Lemma unrolled_entry (s b : Z) :
  0 <= s < 4 -> 0 <= b < 64 ->
  tbl T (64 * s .| b) .& 0x3f = fst (run L 3 s b) /\
  tbl T (64 * s .| b) .& 0xc0 = 64 * snd (run L 3 s b).
Proof.
  intros Hs Hb.
  pose proof (range_forallb2 _ _ _ T_unrolled s b Hs Hb) as H.
  cbv beta zeta in H. apply andb_prop in H as [H1 H2].
  split; now apply Z.eqb_eq.
Qed.

Lemma lut3_loop_run (q : nat) :
  forall (fuel p : nat) (h s r : Z),
    (q <= fuel)%nat -> (p + q <= 10)%nat ->
    0 <= h < 64 ^ Z.of_nat p -> 0 <= s < 4 -> 0 <= r < 6 ->
    lut3_loop T fuel w (LoopState (6 * Z.of_nat q + r) h (64 * s)) =
    LoopState r (h * 64 ^ Z.of_nat q + fst (run L (3 * q) s (w >> r)))
              (64 * snd (run L (3 * q) s (w >> r))).
Proof.
  induction q as [|q IH]; intros fuel p h s r Hf Hp Hh Hs Hr.
  - replace (6 * Z.of_nat 0 + r) with r by lia.
    cbn [Nat.mul run fst snd]. rewrite Z.pow_0_r, Z.mul_1_r, Z.add_0_r.
    destruct fuel; cbn [lut3_loop ls_m]; [reflexivity|].
    replace (6 <=? r) with false by (symmetry; apply Z.leb_gt; lia). reflexivity.
  - destruct fuel as [|fuel]; [lia|]. cbn [lut3_loop ls_m ls_out ls_i].
    replace (6 <=? 6 * Z.of_nat (S q) + r) with true by (symmetry; apply Z.leb_le; lia).
    replace (6 * Z.of_nat (S q) + r - 6) with (6 * Z.of_nat q + r) by lia.
    set (b := (w >> (6 * Z.of_nat q + r)) .& 0x3f).
    assert (Hb : 0 <= b < 64).
    { unfold b. rewrite land_63_mod. apply Z.mod_pos_bound. reflexivity. }
    destruct (unrolled_entry s b Hs Hb) as [Ho Hn]. rewrite Ho, Hn.
    assert (Hrun : run L 3 s b = run L 3 s ((w >> r) >> (2 * Z.of_nat (3 * q)))).
    { unfold b. rewrite land_63_mod, run_mod, Z.shiftr_shiftr by lia.
      do 2 f_equal. lia. }
    pose proof (run_range L 3 s b) as Ho3.
    pose proof (run_state_range L 3 s b Hs) as Hs3.
    change (4 ^ Z.of_nat 3) with 64 in Ho3.
    assert (Hh' : shl64 h 6 .| fst (run L 3 s b) = h * 64 + fst (run L 3 s b)).
    { change 64 with (2 ^ 6) at 1.
      apply (shl64_lor_add _ _ _ (6 * Z.of_nat p)); try lia.
      rewrite Z.pow_mul_r by lia. assumption. }
    rewrite Hh'. rewrite (IH fuel (S p)); try lia.
    + replace (3 * S q)%nat with (3 + 3 * q)%nat by lia.
      rewrite (run_app L 3 (3 * q)), <- Hrun.
      destruct (run L 3 s b) as [o1 s1]. cbn [fst snd].
      destruct (run L (3 * q) s1 (w >> r)) as [o2 s2]. cbn [fst snd].
      f_equal. rewrite <- pow64_pow4, Nat2Z.inj_succ, Z.pow_succ_r by lia. ring.
    + rewrite Nat2Z.inj_succ, Z.pow_succ_r by lia. lia.
Qed.

(** The last group of [c] bit pairs, [c = 1] or [2]. *)
Lemma lut3_partial (c : nat) (s : Z) :
  (1 <= c <= 2)%nat -> 0 <= s < 4 ->
  let r := 6 - 2 * Z.of_nat c in
  (tbl T (64 * s .| (shl64 w r .& 0x3f)) .& 0x3f) >> r = fst (run L c s w).
Proof.
  intros Hc Hs r.
  set (b := shl64 w r .& 0x3f).
  assert (Hb : 0 <= b < 64).
  { unfold b. rewrite land_63_mod. apply Z.mod_pos_bound. reflexivity. }
  destruct (unrolled_entry s b Hs Hb) as [Ho _]. rewrite Ho.
  replace 3%nat with (c + (3 - c))%nat by lia.
  rewrite run_app.
  assert (Hr : r = 2 * Z.of_nat (3 - c)) by lia.
  assert (Hrun : run L c s (b >> (2 * Z.of_nat (3 - c))) = run L c s w).
  { apply run_ext. intros k Hk. rewrite digit_shiftr. unfold b.
    rewrite land_63_mod, digit_mod by lia. unfold shl64, u64.
    change (2 ^ 64) with (4 ^ Z.of_nat 32). rewrite digit_mod by lia.
    unfold digit. rewrite Hr, Z.shiftr_shiftl_r by lia. do 2 f_equal. lia. }
  rewrite Hrun. destruct (run L c s w) as [o1 s1] eqn:E1.
  pose proof (run_range L (3 - c) s1 b) as Ho2.
  destruct (run L (3 - c) s1 b) as [o2 s2]. cbn [fst] in *.
  rewrite Hr, Z.shiftr_div_pow2, <- pow4_pow2 by lia.
  rewrite Z.div_add_l by lia. rewrite Z.div_small by assumption. lia.
Qed.

Lemma lut3_convert_run (m : Z) :
  0 <= m <= 32 -> lut3_convert T w m = fst (run L (Z.to_nat m) 0 w).
Proof.
  intros Hm.
  set (M := Z.to_nat m).
  pose proof (Nat.div_mod_eq M 3) as HM.
  pose proof (Nat.mod_upper_bound M 3 ltac:(lia)) as Hc.
  set (q := (M / 3)%nat) in *. set (c := (M mod 3)%nat) in *.
  pose proof (lut3_loop_run q (Z.to_nat (2 * m)) 0%nat 0 0 (2 * Z.of_nat c)
                ltac:(lia) ltac:(lia) ltac:(simpl; lia) ltac:(lia) ltac:(lia))
    as Hloop.
  replace (6 * Z.of_nat q + 2 * Z.of_nat c) with (2 * m) in Hloop by lia.
  change (64 * 0) with 0 in Hloop.
  unfold lut3_convert. rewrite Hloop. clear Hloop.
  cbn [ls_m ls_out ls_i]. rewrite Z.mul_0_l, Z.add_0_l.
  rewrite HM, (run_app L (3 * q) c).
  pose proof (run_range L (3 * q) 0 (w >> (2 * Z.of_nat c))) as Ho.
  pose proof (run_state_range L (3 * q) 0 (w >> (2 * Z.of_nat c)) ltac:(lia)) as Hs.
  destruct (run L (3 * q) 0 (w >> (2 * Z.of_nat c))) as [o s]. cbn [fst snd] in *.
  destruct (Nat.eq_dec c 0) as [E|E].
  - rewrite E. cbn [run Z.of_nat Z.mul Z.eqb negb]. cbn [fst]. lia.
  - replace (2 * Z.of_nat c =? 0) with false by (symmetry; apply Z.eqb_neq; lia).
    cbn [negb]. rewrite lut3_partial by lia.
    pose proof (run_range L c s w) as Hc1.
    destruct (run L c s w) as [o1 s1]. cbn [fst] in *.
    rewrite (shl64_lor_add _ _ _ (2 * Z.of_nat (3 * q))); try lia.
    + rewrite <- pow4_pow2. reflexivity.
    + rewrite <- pow4_pow2. assumption.
    + rewrite <- pow4_pow2. assumption.
Qed.

End Unrolled.

(** *** Both loops leave by their own test

    The fuel given by [lut3_convert] and [mortonToHilbert_ref] is never
    what stops the loop. *)
Lemma lut3_loop_exit (T : list Z) (w : Z) (fuel : nat) :
  forall st, (Z.to_nat (ls_m st) <= fuel)%nat ->
    ls_m (lut3_loop T fuel w st) < 6.
Proof.
  induction fuel as [|fuel IH]; intros st Hf; cbn [lut3_loop].
  - lia.
  - destruct (Z.leb_spec 6 (ls_m st)); [|assumption].
    apply IH. cbn [ls_m]. lia.
Qed.

Lemma lut1_loop_exit (L z : Z) (n : nat) :
  forall fuel h i, (n <= fuel)%nat ->
    ls_m (lut1_loop L fuel z (LoopState (2 * Z.of_nat n) h i)) = 0.
Proof.
  induction n as [|n IH]; intros fuel h i Hf.
  - destruct fuel; reflexivity.
  - destruct fuel as [|fuel]; [lia|]. cbn [lut1_loop ls_m].
    replace (2 * Z.of_nat (S n) =? 0) with false by (symmetry; apply Z.eqb_neq; lia).
    cbn [negb]. replace (2 * Z.of_nat (S n) - 2) with (2 * Z.of_nat n) by lia.
    apply IH. lia.
Qed.

Lemma HILBERT_LUT_3_unrolled : unrolled HILBERT_LUT_3 HILBERT_LUT_1 = true.
Proof. vm_compute. reflexivity. Qed.

Lemma HILBERT_INVERSE_LUT_3_unrolled :
  unrolled HILBERT_INVERSE_LUT_3 HILBERT_INVERSE_LUT_1 = true.
Proof. vm_compute. reflexivity. Qed.

Lemma mortonToHilbert_run (z m : Z) :
  0 <= m <= 32 ->
  mortonToHilbert z m = fst (run HILBERT_LUT_1 (Z.to_nat m) 0 z).
Proof. apply lut3_convert_run, HILBERT_LUT_3_unrolled. Qed.

Lemma hilbertToMorton_run (h m : Z) :
  0 <= m <= 32 ->
  hilbertToMorton h m = fst (run HILBERT_INVERSE_LUT_1 (Z.to_nat m) 0 h).
Proof. apply lut3_convert_run, HILBERT_INVERSE_LUT_3_unrolled. Qed.

(** *** The two transducers are inverse of each other *)

Section Inverse.

Variables L Linv : Z.
Hypothesis L_inverse : inverse_lut L Linv = true.

Lemma inverse_entry (s d : Z) :
  0 <= s < 4 -> 0 <= d < 4 ->
  lut1 Linv s (lut1 L s d .& 3) .& 3 = d /\
  lut1 Linv s (lut1 L s d .& 3) >> 2 = lut1 L s d >> 2.
Proof.
  intros Hs Hd.
  pose proof (range_forallb2 _ _ _ L_inverse s d Hs Hd) as H.
  cbv beta zeta in H. apply andb_prop in H as [H1 H2].
  split; now apply Z.eqb_eq.
Qed.

Lemma run_inverse (n : nat) :
  forall s w, 0 <= s < 4 ->
    run Linv n s (fst (run L n s w)) =
    (w mod 4 ^ Z.of_nat n, snd (run L n s w)).
Proof.
  induction n as [|k IH]; intros s w Hs.
  - cbn [run fst snd]. now rewrite Z.pow_0_r, Z.mod_1_r.
  - cbn [run].
    set (e := lut1 L s (digit w k)).
    pose proof (IH (e >> 2) w (lut1_state_range _ _ _)) as IHk.
    pose proof (run_range L k (e >> 2) w) as Ho.
    destruct (run L k (e >> 2) w) as [o s']. cbn [fst snd] in *.
    pose proof (land_3_range e) as He.
    assert (Hd : digit ((e .& 3) * 4 ^ Z.of_nat k + o) k = e .& 3).
    { rewrite digit_div_mod, Z.div_add_l, Z.div_small by lia.
      rewrite Z.add_0_r. apply Z.mod_small. assumption. }
    rewrite Hd.
    destruct (inverse_entry s (digit w k) Hs (digit_range _ _)) as [E1 E2].
    fold e in E1, E2. rewrite E1, E2.
    rewrite <- (run_mod Linv k), Z.add_comm, Z.mod_add, Z.mod_small by lia.
    rewrite IHk. now rewrite mod_pow4_S.
Qed.

End Inverse.

Lemma HILBERT_LUT_1_inverse : inverse_lut HILBERT_LUT_1 HILBERT_INVERSE_LUT_1 = true.
Proof. vm_compute. reflexivity. Qed.

Lemma HILBERT_INVERSE_LUT_1_inverse :
  inverse_lut HILBERT_INVERSE_LUT_1 HILBERT_LUT_1 = true.
Proof. vm_compute. reflexivity. Qed.

Lemma pow4_Z (m : Z) : 0 <= m -> 4 ^ Z.of_nat (Z.to_nat m) = 4 ^ m.
Proof. intros Hm. now rewrite Z2Nat.id. Qed.

Lemma mortonToHilbert_range (z m : Z) :
  0 <= m <= 32 -> 0 <= mortonToHilbert z m < 4 ^ m.
Proof.
  intros Hm. rewrite mortonToHilbert_run, <- pow4_Z by lia. apply run_range.
Qed.

Lemma hilbertToMorton_range (h m : Z) :
  0 <= m <= 32 -> 0 <= hilbertToMorton h m < 4 ^ m.
Proof.
  intros Hm. rewrite hilbertToMorton_run, <- pow4_Z by lia. apply run_range.
Qed.

Lemma hilbertToMorton_mortonToHilbert (z m : Z) :
  0 <= m <= 32 -> hilbertToMorton (mortonToHilbert z m) m = z mod 4 ^ m.
Proof.
  intros Hm. rewrite hilbertToMorton_run, mortonToHilbert_run by assumption.
  rewrite (run_inverse _ _ HILBERT_LUT_1_inverse) by lia.
  cbn [fst]. now rewrite pow4_Z by lia.
Qed.

Lemma mortonToHilbert_hilbertToMorton (h m : Z) :
  0 <= m <= 32 -> mortonToHilbert (hilbertToMorton h m) m = h mod 4 ^ m.
Proof.
  intros Hm. rewrite hilbertToMorton_run, mortonToHilbert_run by assumption.
  rewrite (run_inverse _ _ HILBERT_INVERSE_LUT_1_inverse) by lia.
  cbn [fst]. now rewrite pow4_Z by lia.
Qed.

Lemma mortonToHilbert_mod (z m : Z) :
  0 <= m <= 32 -> mortonToHilbert (z mod 4 ^ m) m = mortonToHilbert z m.
Proof.
  intros Hm. rewrite !mortonToHilbert_run by assumption.
  now rewrite <- pow4_Z, run_mod by lia.
Qed.

Lemma hilbertToMorton_mod (h m : Z) :
  0 <= m <= 32 -> hilbertToMorton (h mod 4 ^ m) m = hilbertToMorton h m.
Proof.
  intros Hm. rewrite !hilbertToMorton_run by assumption.
  now rewrite <- pow4_Z, run_mod by lia.
Qed.

(** *** Morton indexes of an [m]-bit grid *)

Lemma bits_above_lt (a n : Z) :
  0 <= n -> 0 <= a -> (forall i, n <= i -> Z.testbit a i = false) -> a < 2 ^ n.
Proof.
  intros Hn Ha H. destruct (Z.eq_dec a 0) as [->|Hnz].
  - apply Z.pow_pos_nonneg; lia.
  - apply Z.log2_lt_pow2; [lia|].
    destruct (Z.lt_ge_cases (Z.log2 a) n) as [|Hge]; [assumption|].
    specialize (H _ Hge). rewrite (Z.bit_log2 a) in H by lia. discriminate.
Qed.

Lemma pow4_pow2_Z (m : Z) : 0 <= m -> 4 ^ m = 2 ^ (2 * m).
Proof. intros Hm. rewrite Z.pow_mul_r by lia. reflexivity. Qed.

Lemma even_odd_cases (i : Z) : 0 <= i -> exists k, 0 <= k /\ (i = 2 * k \/ i = 2 * k + 1).
Proof.
  intros Hi. exists (i / 2). split; [apply Z.div_pos; lia|].
  pose proof (Z.div_mod i 2 ltac:(lia)). pose proof (Z.mod_pos_bound i 2 ltac:(lia)). lia.
Qed.

Lemma pow2_le_32 (m : Z) : 0 <= m <= 32 -> 2 ^ m <= 2 ^ 32.
Proof. intros Hm. apply Z.pow_le_mono_r; lia. Qed.

Lemma mortonIndex_grid (x y m : Z) :
  0 <= m <= 32 -> 0 <= x < 2 ^ m -> 0 <= y < 2 ^ m ->
  0 <= mortonIndex x y < 4 ^ m.
Proof.
  intros Hm Hx Hy. pose proof (pow2_le_32 m Hm).
  split; [apply mortonIndex_range; lia|].
  rewrite pow4_pow2_Z by lia.
  apply bits_above_lt; [lia | apply mortonIndex_range; lia |].
  intros i Hi. destruct (even_odd_cases i ltac:(lia)) as (k & Hk & [->| ->]).
  - rewrite mortonIndex_even_bit by lia. apply (testbit_high x m); lia.
  - rewrite mortonIndex_odd_bit by lia. apply (testbit_high y m); lia.
Qed.

Lemma mortonIndexInverse_grid (z m : Z) :
  0 <= m <= 32 -> 0 <= z < 4 ^ m ->
  0 <= fst (mortonIndexInverse z) < 2 ^ m /\
  0 <= snd (mortonIndexInverse z) < 2 ^ m.
Proof.
  intros Hm Hz. rewrite pow4_pow2_Z in Hz by lia.
  pose proof (mortonIndexInverse_range z) as [Hx Hy].
  split; (split; [lia|]); apply bits_above_lt; try lia; intros i Hi.
  - rewrite inverse_x_bit by lia. rewrite (testbit_high z (2 * m)) by lia.
    apply andb_false_r.
  - rewrite inverse_y_bit by lia. rewrite (testbit_high z (2 * m)) by lia.
    apply andb_false_r.
Qed.

(** The [2m] low bits of the Morton index are the Morton index of the [m]
    low bits of the coordinates. *)
Lemma mortonIndex_mod (x y m : Z) :
  0 <= m <= 32 -> 0 <= x < 2 ^ 32 -> 0 <= y < 2 ^ 32 ->
  mortonIndex (x mod 2 ^ m) (y mod 2 ^ m) = mortonIndex x y mod 4 ^ m.
Proof.
  intros Hm Hx Hy. pose proof (pow2_le_32 m Hm).
  pose proof (Z.mod_pos_bound x (2 ^ m) ltac:(lia)).
  pose proof (Z.mod_pos_bound y (2 ^ m) ltac:(lia)).
  assert (4 ^ m <= 2 ^ 64).
  { rewrite pow4_pow2_Z by lia. apply Z.pow_le_mono_r; lia. }
  pose proof (Z.mod_pos_bound (mortonIndex x y) (4 ^ m) ltac:(lia)).
  apply (bits_inj_below _ _ 64); [lia | apply mortonIndex_range; lia | lia |].
  intros i Hi. rewrite pow4_pow2_Z, Z.testbit_mod_pow2 by lia.
  destruct (even_odd_cases i ltac:(lia)) as (k & Hk & [->| ->]).
  - rewrite !mortonIndex_even_bit, Z.testbit_mod_pow2 by lia.
    f_equal. destruct (Z.ltb_spec k m), (Z.ltb_spec (2 * k) (2 * m)); lia || reflexivity.
  - rewrite !mortonIndex_odd_bit, Z.testbit_mod_pow2 by lia.
    f_equal. destruct (Z.ltb_spec k m), (Z.ltb_spec (2 * k + 1) (2 * m)); lia || reflexivity.
Qed.

(** ** The cells of the Hilbert curve *)

Lemma testbit_cat (a b k i : Z) :
  0 <= k -> 0 <= b < 2 ^ k -> 0 <= i ->
  Z.testbit (a * 2 ^ k + b) i = if i <? k then Z.testbit b i else Z.testbit a (i - k).
Proof.
  intros Hk Hb Hi. rewrite <- lor_shiftl_add, Z.lor_spec by assumption.
  destruct (Z.ltb_spec i k).
  - now rewrite Z.shiftl_spec_low.
  - rewrite Z.shiftl_spec, (testbit_high b k i) by lia. apply orb_false_r.
Qed.

Lemma pair_bits (q j : Z) :
  0 <= q < 4 -> 0 <= j ->
  Z.testbit q (2 * j) = Z.testbit (q mod 2) j /\
  Z.testbit q (2 * j + 1) = Z.testbit (q / 2) j.
Proof.
  intros Hq Hj. destruct (Z.eq_dec j 0) as [->|Hnz].
  - assert (H : q = 0 \/ q = 1 \/ q = 2 \/ q = 3) by lia.
    destruct H as [->|[->|[->| ->]]]; split; reflexivity.
  - rewrite (testbit_high q 2 (2 * j)), (testbit_high q 2 (2 * j + 1)) by lia.
    rewrite (testbit_high (q mod 2) 1 j), (testbit_high (q / 2) 1 j);
      try lia; try (split; reflexivity).
    + split; [apply Z.div_pos; lia | apply Z.div_lt_upper_bound; lia].
    + apply Z.mod_pos_bound. lia.
Qed.

(** The cell of a Morton index is the cell of its low [k] bit pairs, moved
    into the quadrant given by bit pair [k]. *)
Lemma mortonIndexInverse_cat (q z : Z) (k : nat) :
  (k < 32)%nat -> 0 <= q < 4 -> 0 <= z < 4 ^ Z.of_nat k ->
  mortonIndexInverse (q * 4 ^ Z.of_nat k + z) =
  (q mod 2 * 2 ^ Z.of_nat k + fst (mortonIndexInverse z),
   q / 2 * 2 ^ Z.of_nat k + snd (mortonIndexInverse z)).
Proof.
  intros Hk Hq Hz.
  destruct (mortonIndexInverse_grid z (Z.of_nat k) ltac:(lia) Hz) as [Hx Hy].
  assert (H2k : 2 * 2 ^ Z.of_nat k <= 2 ^ 32).
  { rewrite <- Z.pow_succ_r by lia. apply Z.pow_le_mono_r; lia. }
  pose proof (Z.mod_pos_bound q 2 ltac:(lia)) as Hq0.
  assert (Hq1 : 0 <= q / 2 < 2)
    by (split; [apply Z.div_pos; lia | apply Z.div_lt_upper_bound; lia]).
  rewrite (surjective_pairing (mortonIndexInverse (q * 4 ^ Z.of_nat k + z))).
  rewrite pow4_pow2 in *.
  f_equal; apply (bits_inj_below _ _ 32); try lia; try apply u32_range; try nia;
    intros i Hi.
  - rewrite inverse_x_bit, !testbit_cat, inverse_x_bit by lia.
    replace (i <? 32) with true by (symmetry; apply Z.ltb_lt; lia). cbn [andb].
    destruct (Z.ltb_spec (2 * i) (2 * Z.of_nat k)), (Z.ltb_spec i (Z.of_nat k));
      try lia; [reflexivity|].
    replace (2 * i - 2 * Z.of_nat k) with (2 * (i - Z.of_nat k)) by lia.
    apply pair_bits; lia.
  - rewrite inverse_y_bit, !testbit_cat, inverse_y_bit by lia.
    replace (i <? 32) with true by (symmetry; apply Z.ltb_lt; lia). cbn [andb].
    destruct (Z.ltb_spec (2 * i + 1) (2 * Z.of_nat k)), (Z.ltb_spec i (Z.of_nat k));
      try lia; [reflexivity|].
    replace (2 * i + 1 - 2 * Z.of_nat k) with (2 * (i - Z.of_nat k) + 1) by lia.
    apply pair_bits; lia.
Qed.

(** [hilbertIndexInverse] walks [curve]. *)
Lemma mortonIndexInverse_run_curve (n : nat) :
  forall s h, (n <= 32)%nat ->
    mortonIndexInverse (fst (run HILBERT_INVERSE_LUT_1 n s h)) = curve n s h.
Proof.
  induction n as [|k IH]; intros s h Hn.
  - reflexivity.
  - cbn [run curve]. unfold quadrant, next_state.
    set (e := lut1 HILBERT_INVERSE_LUT_1 s (digit h k)).
    specialize (IH (e >> 2) h ltac:(lia)).
    pose proof (run_range HILBERT_INVERSE_LUT_1 k (e >> 2) h) as Ho.
    destruct (run HILBERT_INVERSE_LUT_1 k (e >> 2) h) as [o s']. cbn [fst] in *.
    rewrite mortonIndexInverse_cat by (lia || apply land_3_range || assumption).
    rewrite IH. destruct (curve k (e >> 2) h). reflexivity.
Qed.

Lemma hilbertIndexInverse_curve (h m : Z) :
  0 <= m <= 32 -> hilbertIndexInverse h m = curve (Z.to_nat m) 0 h.
Proof.
  intros Hm. unfold hilbertIndexInverse. rewrite hilbertToMorton_run by assumption.
  apply mortonIndexInverse_run_curve. lia.
Qed.

Lemma curve_ext (n : nat) :
  forall s h h', (forall k, (k < n)%nat -> digit h k = digit h' k) ->
    curve n s h = curve n s h'.
Proof.
  induction n as [|k IH]; intros s h h' H; [reflexivity|].
  cbn [curve]. rewrite (H k) by lia. rewrite (IH _ h h'); [reflexivity|].
  intros j Hj. apply H. lia.
Qed.

Lemma curve_mod (n : nat) (s h : Z) :
  curve n s (h mod 4 ^ Z.of_nat n) = curve n s h.
Proof. apply curve_ext. intros k Hk. now apply digit_mod. Qed.

Lemma next_state_range (s d : Z) : 0 <= next_state s d < 4.
Proof. apply lut1_state_range. Qed.

Lemma pair_eqb_eq (p q : Z * Z) : pair_eqb p q = true -> p = q.
Proof.
  unfold pair_eqb. intros H. apply andb_prop in H as [H1 H2].
  apply Z.eqb_eq in H1, H2. now apply injective_projections.
Qed.

Lemma corners (s : Z) :
  0 <= s < 4 ->
  entry_corner (next_state s 0) = entry_corner s /\
  exit_corner (next_state s 3) = exit_corner s.
Proof.
  intros Hs.
  assert (H : corners_ok = true) by (vm_compute; reflexivity).
  pose proof (range_forallb _ _ H s Hs) as Hc. cbv beta in Hc.
  apply andb_prop in Hc as [H1 H2]. split; now apply pair_eqb_eq.
Qed.

(** The curve starts in its entry corner ... *)
Lemma curve_entry (n : nat) :
  forall s h, 0 <= s < 4 -> (forall k, (k < n)%nat -> digit h k = 0) ->
    curve n s h = (fst (entry_corner s) * (2 ^ Z.of_nat n - 1),
                   snd (entry_corner s) * (2 ^ Z.of_nat n - 1)).
Proof.
  induction n as [|k IH]; intros s h Hs H.
  - cbn [curve]. f_equal; simpl; lia.
  - cbn [curve]. rewrite (H k) by lia.
    rewrite (IH (next_state s 0) h) by (apply next_state_range || (intros; apply H; lia)).
    rewrite (proj1 (corners s Hs)). unfold entry_corner.
    destruct (quadrant s 0) as [qx qy]. cbn [fst snd].
    rewrite Nat2Z.inj_succ, Z.pow_succ_r by lia. f_equal; ring.
Qed.

(** ... and ends in its exit corner. *)
Lemma curve_exit (n : nat) :
  forall s h, 0 <= s < 4 -> (forall k, (k < n)%nat -> digit h k = 3) ->
    curve n s h = (fst (exit_corner s) * (2 ^ Z.of_nat n - 1),
                   snd (exit_corner s) * (2 ^ Z.of_nat n - 1)).
Proof.
  induction n as [|k IH]; intros s h Hs H.
  - cbn [curve]. f_equal; simpl; lia.
  - cbn [curve]. rewrite (H k) by lia.
    rewrite (IH (next_state s 3) h) by (apply next_state_range || (intros; apply H; lia)).
    rewrite (proj2 (corners s Hs)). unfold exit_corner.
    destruct (quadrant s 3) as [qx qy]. cbn [fst snd].
    rewrite Nat2Z.inj_succ, Z.pow_succ_r by lia. f_equal; ring.
Qed.

Lemma curve_S (k : nat) (s h : Z) :
  curve (S k) s h =
  (fst (quadrant s (digit h k)) * 2 ^ Z.of_nat k
     + fst (curve k (next_state s (digit h k)) h),
   snd (quadrant s (digit h k)) * 2 ^ Z.of_nat k
     + snd (curve k (next_state s (digit h k)) h)).
Proof.
  cbn [curve]. destruct (quadrant s (digit h k)).
  destruct (curve k (next_state s (digit h k)) h). reflexivity.
Qed.

Lemma crosses_spec (q e q' f P : Z) :
  crosses q e q' f = true ->
  Z.abs (q * P + e * (P - 1) - (q' * P + f * (P - 1))) = 1.
Proof.
  unfold crosses. intros H.
  apply orb_prop in H as [H|H];
    repeat (apply andb_prop in H as [H ?]);
    repeat match goal with E : (_ =? _) = true |- _ => apply Z.eqb_eq in E end;
    subst; lia.
Qed.

Lemma stays_spec (q e q' f P : Z) :
  stays q e q' f = true -> q * P + e * (P - 1) = q' * P + f * (P - 1).
Proof.
  unfold stays. intros H.
  apply andb_prop in H as [H _]. apply andb_prop in H as [H1 H2].
  apply Z.eqb_eq in H1, H2. now subst.
Qed.

(** Passing from quadrant [d] to quadrant [d + 1]: the last cell of the one
    and the first cell of the other are neighbours. *)
Lemma junction (s d P : Z) :
  0 <= s < 4 -> 0 <= d < 3 ->
  let q := quadrant s d in
  let e := exit_corner (next_state s d) in
  let q' := quadrant s (d + 1) in
  let f := entry_corner (next_state s (d + 1)) in
  adjacent (fst q * P + fst e * (P - 1), snd q * P + snd e * (P - 1))
           (fst q' * P + fst f * (P - 1), snd q' * P + snd f * (P - 1)).
Proof.
  intros Hs Hd q e q' f.
  assert (H : junction_ok = true) by (vm_compute; reflexivity).
  pose proof (range_forallb2 _ _ _ H s d Hs Hd) as Hj.
  cbv beta zeta in Hj. fold q e q' f in Hj.
  apply orb_prop in Hj as [Hj|Hj]; apply andb_prop in Hj as [H1 H2].
  - left. cbn [fst snd]. split; [now apply crosses_spec | now apply stays_spec].
  - right. cbn [fst snd]. split; [now apply stays_spec | now apply crosses_spec].
Qed.

Lemma adjacent_shift (a b : Z) (p q : Z * Z) :
  adjacent p q -> adjacent (a + fst p, b + snd p) (a + fst q, b + snd q).
Proof.
  unfold adjacent. cbn [fst snd]. intros [[H1 H2]|[H1 H2]]; [left|right]; split; lia.
Qed.

Lemma digit_ones (k j : nat) : (j < k)%nat -> digit (4 ^ Z.of_nat k - 1) j = 3.
Proof.
  intros Hj. unfold digit. rewrite pow4_pow2.
  replace (2 ^ (2 * Z.of_nat k) - 1) with (Z.ones (2 * Z.of_nat k))
    by (rewrite Z.ones_equiv; lia).
  rewrite Z.shiftr_div_pow2, Z.ones_div_pow2 by lia.
  change 3 with (Z.ones 2). rewrite Z.land_ones, Z.ones_mod_pow2 by lia.
  reflexivity.
Qed.

Lemma digit_low_zero (a : Z) (k j : nat) :
  (j < k)%nat -> digit (a * 4 ^ Z.of_nat k) j = 0.
Proof.
  intros Hj. rewrite <- (digit_mod _ k j Hj), Z.mod_mul by (pose proof (pow4_pos k); lia).
  unfold digit. now rewrite Z.shiftr_0_l.
Qed.

(** Consecutive indexes of [curve] are neighbouring cells. *)
Lemma curve_adjacent (n : nat) :
  forall s h, 0 <= s < 4 -> 0 <= h -> h + 1 < 4 ^ Z.of_nat n ->
    adjacent (curve n s h) (curve n s (h + 1)).
Proof.
  induction n as [|k IH]; intros s h Hs Hh Hlt.
  - simpl in Hlt. lia.
  - pose proof (pow4_pos k) as HP. rewrite pow4_S in Hlt.
    pose proof (Z.div_mod h (4 ^ Z.of_nat k) ltac:(lia)) as Hdm.
    pose proof (Z.mod_pos_bound h (4 ^ Z.of_nat k) HP) as Hr.
    set (d := h / 4 ^ Z.of_nat k) in *. set (r := h mod 4 ^ Z.of_nat k) in *.
    assert (Hd : 0 <= d < 4) by nia.
    assert (Hdk : digit h k = d).
    { rewrite digit_div_mod. fold d. apply Z.mod_small. assumption. }
    rewrite !curve_S, Hdk.
    destruct (Z.lt_ge_cases (r + 1) (4 ^ Z.of_nat k)) as [Hin|Hout].
    + (* inside the quadrant *)
      assert (Hd1 : (h + 1) / 4 ^ Z.of_nat k = d).
      { symmetry. apply (Z.div_unique _ _ _ (r + 1)); lia. }
      assert (Hr1 : (h + 1) mod 4 ^ Z.of_nat k = r + 1).
      { symmetry. apply (Z.mod_unique _ _ d); lia. }
      assert (Hdk1 : digit (h + 1) k = d).
      { rewrite digit_div_mod, Hd1. apply Z.mod_small. assumption. }
      rewrite Hdk1.
      rewrite <- (curve_mod k _ h), <- (curve_mod k _ (h + 1)). fold r. rewrite Hr1.
      apply adjacent_shift, IH; [apply next_state_range | lia | assumption].
    + (* from one quadrant to the next *)
      assert (Hd3 : d < 3) by nia.
      assert (Hh1 : h + 1 = (d + 1) * 4 ^ Z.of_nat k) by lia.
      assert (Hdk1 : digit (h + 1) k = d + 1).
      { rewrite digit_div_mod, Hh1, Z.div_mul by lia. apply Z.mod_small. lia. }
      rewrite Hdk1.
      rewrite (curve_exit k _ h) by
        (apply next_state_range ||
         (intros j Hj; rewrite <- (digit_mod h k j Hj); fold r;
          replace r with (4 ^ Z.of_nat k - 1) by lia; now apply digit_ones)).
      rewrite (curve_entry k _ (h + 1)) by
        (apply next_state_range ||
         (intros j Hj; rewrite Hh1; now apply digit_low_zero)).
      cbn [fst snd]. apply junction; lia.
Qed.

(** ** Serialization of [ConvexPolygon] *)

Lemma firstn_app_len {A : Type} (a b : list A) (n : nat) :
  length a = n -> firstn n (a ++ b) = a.
Proof.
  intros <-. rewrite firstn_app, Nat.sub_diag, firstn_all. cbn [firstn].
  apply app_nil_r.
Qed.

Lemma skipn_app_len {A : Type} (a b : list A) (n : nat) :
  length a = n -> skipn n (a ++ b) = b.
Proof.
  intros <-. rewrite skipn_app, Nat.sub_diag, skipn_all. reflexivity.
Qed.

Lemma length_encodeVertex (v : UnitVector3d) : length (encodeVertex v) = 24%nat.
Proof. unfold encodeVertex. rewrite !length_app, !length_le_split. reflexivity. Qed.

Lemma length_encodeVertices (vs : list UnitVector3d) :
  length (flat_map encodeVertex vs) = (24 * length vs)%nat.
Proof.
  induction vs as [|v vs IH]; [reflexivity|].
  cbn [flat_map length]. rewrite length_app, length_encodeVertex, IH. lia.
Qed.

Lemma length_encode (p : ConvexPolygon) :
  length (encode p) = (5 + 24 * length (_vertices p))%nat.
Proof.
  unfold encode. cbn [length].
  rewrite length_app, length_le_split, length_encodeVertices. lia.
Qed.

Lemma decodeDouble_encodeDouble (d : Z) (rest : list byte) :
  is_double d -> le_combine (firstn 8 (le_split 8 d ++ rest)) = d.
Proof.
  intros Hd. rewrite firstn_app_len by apply length_le_split.
  rewrite le_combine_split. apply Z.mod_small. exact Hd.
Qed.

Lemma decodeVertices_cons (n : nat) (x y z : Z) (rest : list byte) :
  is_double x -> is_double y -> is_double z ->
  decodeVertices (S n) (le_split 8 x ++ le_split 8 y ++ le_split 8 z ++ rest) =
  Vector3d x y z :: decodeVertices n rest.
Proof.
  intros Hx Hy Hz. cbn [decodeVertices].
  change 24%nat with (8 + (8 + 8))%nat. change 16%nat with (8 + 8)%nat.
  rewrite <- !skipn_skipn.
  rewrite !(skipn_app_len (le_split 8 x)) by apply length_le_split.
  rewrite !(skipn_app_len (le_split 8 y)) by apply length_le_split.
  rewrite !(skipn_app_len (le_split 8 z)) by apply length_le_split.
  now rewrite !decodeDouble_encodeDouble by assumption.
Qed.

Lemma decodeVertices_encode (vs : list UnitVector3d) :
  Forall is_vector vs ->
  decodeVertices (length vs) (flat_map encodeVertex vs) = vs.
Proof.
  induction 1 as [|v vs (Hx & Hy & Hz) Hvs IH]; [reflexivity|].
  cbn [length flat_map]. unfold encodeVertex at 1.
  rewrite <- !app_assoc, decodeVertices_cons, IH by assumption.
  now destruct v.
Qed.

Lemma decode_encode (p : ConvexPolygon) :
  constructed p -> decode (encode p) = Decoded p.
Proof.
  intros (H3 & H32 & Hvs). destruct p as [vs]. cbn [_vertices] in *.
  unfold decode. rewrite length_encode. unfold encode. cbn [_vertices].
  replace (5 + 24 * length vs <? 5)%nat with false
    by (symmetry; apply Nat.ltb_ge; lia).
  change (Byte.eqb TYPE_CODE TYPE_CODE) with true. cbn [negb].
  rewrite firstn_app_len, skipn_app_len by apply length_le_split.
  rewrite le_combine_split. change (Z.of_nat 4 * 8) with 32.
  rewrite Z.mod_small by lia.
  rewrite length_encodeVertices.
  replace (Z.of_nat (24 * length vs) =? 24 * Z.of_nat (length vs)) with true
    by (symmetry; apply Z.eqb_eq; lia).
  rewrite Nat2Z.id, decodeVertices_encode by assumption. reflexivity.
Qed.

Lemma decode_type_code (s : list byte) :
  hd_error s <> Some TYPE_CODE -> decode s = DecodeError.
Proof.
  destruct s as [|tc rest]; [reflexivity|]. cbn [hd_error]. intros Hne.
  unfold decode. destruct (length (tc :: rest) <? 5)%nat; [reflexivity|].
  destruct (Byte.eqb tc TYPE_CODE) eqn:E; [|reflexivity].
  apply Byte.byte_dec_bl in E. congruence.
Qed.

Lemma decode_count (tc : byte) (rest : list byte) :
  Z.of_nat (length (skipn 4 rest)) <> 24 * le_combine (firstn 4 rest) ->
  decode (tc :: rest) = DecodeError.
Proof.
  intros Hne. unfold decode.
  destruct (length (tc :: rest) <? 5)%nat; [reflexivity|].
  destruct (negb (Byte.eqb tc TYPE_CODE)); [reflexivity|].
  apply Z.eqb_neq in Hne. now rewrite Hne.
Qed.

Lemma decode_short (s : list byte) :
  (length s < 5)%nat -> decode s = DecodeError.
Proof.
  intros Hlen. destruct s as [|tc rest]; [reflexivity|]. unfold decode.
  apply Nat.ltb_lt in Hlen. now rewrite Hlen.
Qed.

Lemma decode_truncated (p : ConvexPolygon) (n : nat) :
  constructed p -> (n < length (encode p))%nat ->
  decode (firstn n (encode p)) = DecodeError.
Proof.
  intros (H3 & H32 & Hvs) Hn. rewrite length_encode in Hn.
  destruct (Nat.lt_ge_cases n 5) as [Hlt|Hge].
  - apply decode_short. rewrite length_firstn. lia.
  - destruct n as [|n]; [lia|]. unfold encode. cbn [firstn].
    apply decode_count.
    set (c := le_split 4 (Z.of_nat (length (_vertices p)))).
    assert (Hc : length c = 4%nat) by apply length_le_split.
    rewrite firstn_app, Hc.
    replace (firstn n c) with c by (symmetry; apply firstn_all2; lia).
    rewrite (firstn_app_len c), (skipn_app_len c) by assumption.
    unfold c. rewrite le_combine_split. change (Z.of_nat 4 * 8) with 32.
    rewrite Z.mod_small by lia.
    rewrite length_firstn, length_encodeVertices. lia.
Qed.

(** ** [relate] *)

Lemma invert_involutive (r : Relationship) : invert (invert r) = r.
Proof. now destruct r. Qed.

(** * The stated properties *)

(** ** Curve indexer *)

(** C1. For every order [m] in [[0, 32]], [hilbertIndex] maps the grid
    [[0, 2^m) x [0, 2^m)] into [[0, 4^m)], [hilbertIndexInverse] undoes it
    (so it is injective), and every index below [4^m] is the Hilbert index of
    the grid cell that [hilbertIndexInverse] returns for it (so it is onto):
    [hilbertIndex] is a bijection with inverse [hilbertIndexInverse]. *)
Theorem hilbertIndex_bijection (m : Z) :
  0 <= m <= 32 ->
  (forall x y, 0 <= x < 2 ^ m -> 0 <= y < 2 ^ m ->
     0 <= hilbertIndex x y m < 4 ^ m /\
     hilbertIndexInverse (hilbertIndex x y m) m = (x, y)) /\
  (forall h, 0 <= h < 4 ^ m ->
     0 <= fst (hilbertIndexInverse h m) < 2 ^ m /\
     0 <= snd (hilbertIndexInverse h m) < 2 ^ m /\
     hilbertIndex (fst (hilbertIndexInverse h m)) (snd (hilbertIndexInverse h m)) m = h).
Proof.
  intros Hm. pose proof (pow2_le_32 m Hm) as H32. split.
  - intros x y Hx Hy. unfold hilbertIndex, hilbertIndexInverse.
    split; [now apply mortonToHilbert_range|].
    rewrite hilbertToMorton_mortonToHilbert by assumption.
    rewrite Z.mod_small by now apply mortonIndex_grid.
    apply mortonIndexInverse_mortonIndex; lia.
  - intros h Hh. unfold hilbertIndex, hilbertIndexInverse.
    pose proof (hilbertToMorton_range h m Hm) as Hz.
    destruct (mortonIndexInverse_grid _ m Hm Hz) as [Hx Hy].
    repeat split; try lia.
    rewrite mortonIndex_mortonIndexInverse.
    + rewrite mortonToHilbert_hilbertToMorton by assumption.
      now apply Z.mod_small.
    + assert (4 ^ m <= 2 ^ 64)
        by (rewrite pow4_pow2_Z by lia; apply Z.pow_le_mono_r; lia).
      lia.
Qed.

Lemma hilbertIndex_bijection_witness :
  0 <= 2 <= 32 /\
  hilbertIndexInverse (hilbertIndex 3 1 2) 2 = (3, 1) /\
  hilbertIndex (fst (hilbertIndexInverse 7 2)) (snd (hilbertIndexInverse 7 2)) 2 = 7.
Proof.
  assert (Hm : 0 <= 2 <= 32) by lia.
  split; [exact Hm|]. split.
  - apply (proj1 (hilbertIndex_bijection 2 Hm) 3 1); simpl; lia.
  - apply (proj2 (hilbertIndex_bijection 2 Hm) 7); simpl; lia.
Defined.

(** C2. For all 32-bit [x] and [y], [mortonIndexInverse (mortonIndex x y)]
    is exactly [(x, y)]. *)
Theorem morton_round_trip (x y : Z) :
  0 <= x < 2 ^ 32 -> 0 <= y < 2 ^ 32 ->
  mortonIndexInverse (mortonIndex x y) = (x, y).
Proof. apply mortonIndexInverse_mortonIndex. Qed.

Lemma morton_round_trip_witness :
  0 <= 0xdeadbeef < 2 ^ 32 /\ 0 <= 0x12345678 < 2 ^ 32 /\
  mortonIndexInverse (mortonIndex 0xdeadbeef 0x12345678) = (0xdeadbeef, 0x12345678).
Proof.
  assert (Hx : 0 <= 0xdeadbeef < 2 ^ 32) by (simpl; lia).
  assert (Hy : 0 <= 0x12345678 < 2 ^ 32) by (simpl; lia).
  split; [exact Hx|]. split; [exact Hy|].
  exact (morton_round_trip _ _ Hx Hy).
Defined.

(** C3. For every order [m] from 1 to 32 and every Hilbert index [h] in
    [[0, 4^m - 2]], the grid cells of [h] and [h + 1] differ by exactly 1 in
    exactly one coordinate. *)
Theorem hilbert_locality (m h : Z) :
  1 <= m <= 32 -> 0 <= h <= 4 ^ m - 2 ->
  adjacent (hilbertIndexInverse h m) (hilbertIndexInverse (h + 1) m).
Proof.
  intros Hm Hh. rewrite !hilbertIndexInverse_curve by lia.
  apply curve_adjacent; [lia | lia |].
  rewrite pow4_Z by lia. lia.
Qed.

Lemma hilbert_locality_witness :
  1 <= 3 <= 32 /\ 0 <= 15 <= 4 ^ 3 - 2 /\
  adjacent (hilbertIndexInverse 15 3) (hilbertIndexInverse (15 + 1) 3).
Proof.
  assert (Hm : 1 <= 3 <= 32) by lia.
  assert (Hh : 0 <= 15 <= 4 ^ 3 - 2) by (simpl; lia).
  split; [exact Hm|]. split; [exact Hh|].
  exact (hilbert_locality 3 15 Hm Hh).
Defined.

(** C4. For every [m] in [[0, 32]] and every 64-bit [z], the table-driven
    [mortonToHilbert], which consumes 6 bits per iteration through
    [HILBERT_LUT_3] and then a last group of 2 or 4 bits, returns the same
    value as the reference loop of the header comment, which consumes one
    bit pair per iteration through [HILBERT_LUT_1]. *)
Theorem mortonToHilbert_reference (m z : Z) :
  0 <= m <= 32 -> 0 <= z < 2 ^ 64 ->
  mortonToHilbert z m = mortonToHilbert_ref z m.
Proof.
  intros Hm _. now rewrite mortonToHilbert_run, mortonToHilbert_ref_run.
Qed.

Lemma mortonToHilbert_reference_witness :
  0 <= 32 <= 32 /\ 0 <= 0xfedcba9876543210 < 2 ^ 64 /\
  mortonToHilbert 0xfedcba9876543210 32 = mortonToHilbert_ref 0xfedcba9876543210 32.
Proof.
  assert (Hm : 0 <= 32 <= 32) by lia.
  assert (Hz : 0 <= 0xfedcba9876543210 < 2 ^ 64) by (simpl; lia).
  split; [exact Hm|]. split; [exact Hz|].
  exact (mortonToHilbert_reference 32 _ Hm Hz).
Defined.

(** C6. For every nonzero 64-bit (resp. 32-bit) [x], [log2] returns the
    0-based index of the highest set bit of [x]; for [x = 0] it returns 0. *)
Theorem log2_most_significant_bit :
  (forall x, 0 < x < 2 ^ 64 -> is_msb_index x (Log2.log2_64 x)) /\
  (forall x, 0 < x < 2 ^ 32 -> is_msb_index x (Log2.log2_32 x)) /\
  Log2.log2_64 0 = 0 /\ Log2.log2_32 0 = 0.
Proof.
  split; [|split; [|split; reflexivity]]; intros x Hx.
  - rewrite log2_64_log2 by assumption. apply log2_is_msb_index. lia.
  - rewrite log2_32_log2 by assumption. apply log2_is_msb_index. lia.
Qed.

Lemma log2_most_significant_bit_witness :
  is_msb_index 0x8000000000000001 (Log2.log2_64 0x8000000000000001) /\
  is_msb_index 0x00ffff00 (Log2.log2_32 0x00ffff00).
Proof.
  split.
  - apply (proj1 log2_most_significant_bit). simpl. lia.
  - apply (proj1 (proj2 log2_most_significant_bit)). simpl. lia.
Defined.

(** C7. For all 32-bit [x] and [y], [mortonIndex x y] is the 64-bit integer
    whose even bits (0, 2, 4, ...) are the bits of [x] and whose odd bits
    (1, 3, 5, ...) are the bits of [y]. *)
Theorem mortonIndex_interleaves (x y : Z) :
  0 <= x < 2 ^ 32 -> 0 <= y < 2 ^ 32 ->
  0 <= mortonIndex x y < 2 ^ 64 /\
  forall i, 0 <= i ->
    Z.testbit (mortonIndex x y) (2 * i) = Z.testbit x i /\
    Z.testbit (mortonIndex x y) (2 * i + 1) = Z.testbit y i.
Proof.
  intros Hx Hy. split; [apply mortonIndex_range; lia|].
  intros i Hi. split.
  - now apply mortonIndex_even_bit.
  - now apply mortonIndex_odd_bit.
Qed.

Lemma mortonIndex_interleaves_witness :
  0 <= 5 < 2 ^ 32 /\ 0 <= 2 < 2 ^ 32 /\
  Z.testbit (mortonIndex 5 2) (2 * 1 + 1) = Z.testbit 2 1.
Proof.
  assert (Hx : 0 <= 5 < 2 ^ 32) by (simpl; lia).
  assert (Hy : 0 <= 2 < 2 ^ 32) by (simpl; lia).
  split; [exact Hx|]. split; [exact Hy|].
  apply (proj2 (mortonIndex_interleaves 5 2 Hx Hy) 1). lia.
Defined.

(** C8, as stated: [mortonIndex 5 2 = 21] and [mortonIndexInverse 21 = (5, 2)].
    It does not hold: 21 is binary 010101, whose even bits are those of 7 and
    whose odd bits are all 0. *)
Lemma morton_example_21_fails :
  ~ (mortonIndex 5 2 = 21 /\ mortonIndexInverse 21 = (5, 2)).
Proof. intros [H _]. vm_compute in H. discriminate. Qed.

(** C8, amended. [mortonIndex 5 2 = 25] (binary 011001) and
    [mortonIndexInverse 25 = (5, 2)]. *)
Theorem morton_example :
  mortonIndex 5 2 = 25 /\ mortonIndexInverse 25 = (5, 2).
Proof. split; vm_compute; reflexivity. Qed.

(** C10. For every [m] in [[0, 32]], [hilbertIndex x y m] depends only on
    the [m] low bits of the 32-bit [x] and [y], and [hilbertIndexInverse h m]
    only on the [2m] low bits of the 64-bit [h]; for [m = 0] every input
    maps to 0, resp. to [(0, 0)]. *)
Theorem hilbert_low_bits (m : Z) :
  0 <= m <= 32 ->
  (forall x y, 0 <= x < 2 ^ 32 -> 0 <= y < 2 ^ 32 ->
     hilbertIndex x y m = hilbertIndex (x mod 2 ^ m) (y mod 2 ^ m) m) /\
  (forall h, 0 <= h < 2 ^ 64 ->
     hilbertIndexInverse h m = hilbertIndexInverse (h mod 4 ^ m) m) /\
  (m = 0 ->
     (forall x y, hilbertIndex x y m = 0) /\
     (forall h, hilbertIndexInverse h m = (0, 0))).
Proof.
  intros Hm. repeat split.
  - intros x y Hx Hy. unfold hilbertIndex.
    rewrite mortonIndex_mod by assumption. now rewrite mortonToHilbert_mod.
  - intros h Hh. unfold hilbertIndexInverse. now rewrite hilbertToMorton_mod.
  - subst m. reflexivity.
  - subst m. reflexivity.
Qed.

Lemma hilbert_low_bits_witness :
  0 <= 3 <= 32 /\
  hilbertIndex 0xabcdef 0x123456 3 = hilbertIndex (0xabcdef mod 2 ^ 3) (0x123456 mod 2 ^ 3) 3 /\
  hilbertIndexInverse 0xfedcba9876543210 3 =
  hilbertIndexInverse (0xfedcba9876543210 mod 4 ^ 3) 3.
Proof.
  assert (Hm : 0 <= 3 <= 32) by lia.
  split; [exact Hm|]. split.
  - apply (proj1 (hilbert_low_bits 3 Hm)); simpl; lia.
  - apply (proj1 (proj2 (hilbert_low_bits 3 Hm))). simpl. lia.
Defined.

(** ** Region kernel *)

(** C5. For every constructed [ConvexPolygon] [p] (at least 3 vertices),
    [decode (encode p)] is [p], every coordinate with the same bit pattern;
    and [decode] fails with [DecodeError], returning no polygon, when the
    leading type code is not ['p'], when the buffer is a truncation of
    [encode p], and when the vertex count is inconsistent with the length. *)
Theorem decode_encode_round_trip (p : ConvexPolygon) :
  constructed p ->
  decode (encode p) = Decoded p /\
  (forall tc, tc <> TYPE_CODE -> decode (tc :: tl (encode p)) = DecodeError) /\
  (forall n, (n < length (encode p))%nat ->
     decode (firstn n (encode p)) = DecodeError) /\
  (forall tc rest,
     Z.of_nat (length (skipn 4 rest)) <> 24 * le_combine (firstn 4 rest) ->
     decode (tc :: rest) = DecodeError).
Proof.
  intros Hp. split; [now apply decode_encode|]. split; [|split].
  - intros tc Hne. apply decode_type_code. cbn [hd_error]. congruence.
  - intros n Hn. now apply decode_truncated.
  - apply decode_count.
Qed.

Lemma decode_encode_round_trip_witness :
  constructed triangle /\ decode (encode triangle) = Decoded triangle.
Proof.
  assert (Hp : constructed triangle).
  { unfold constructed, triangle. cbn [_vertices length]. split; [lia|].
    split; [simpl; lia|].
    repeat constructor; cbn [v_x v_y v_z]; simpl; lia. }
  split; [exact Hp|]. exact (proj1 (decode_encode_round_trip triangle Hp)).
Defined.

(** ** Relationship testing *)

(** C9. Where [ConvexPolygon] has no direct case for the kind of the other
    region, [A.relate(B)] is [invert (B.relate(A))], and [invert] maps
    DISJOINT to DISJOINT, INTERSECTS to INTERSECTS, CONTAINS to WITHIN and
    WITHIN to CONTAINS. *)
Theorem relate_symmetry (A : ConvexPolygon) (B : Region) :
  relate A B = invert (relate_ConvexPolygon B A) /\
  invert DISJOINT = DISJOINT /\ invert INTERSECTS = INTERSECTS /\
  invert CONTAINS = WITHIN /\ invert WITHIN = CONTAINS.
Proof. repeat split. Qed.

(** * Further properties of the curve indexer *)

(** ** The SSE2 path computes what the portable path computes *)

Lemma to_int64_u64 (u : Z) : 0 <= u < 2 ^ 64 -> u64 (to_int64 u) = u.
Proof.
  intros Hu. unfold to_int64, u64. destruct (u <? 2 ^ 63).
  - now apply Z.mod_small.
  - symmetry. apply (Z.mod_unique _ _ (-1)); lia.
Qed.

Lemma set_epi64x_cast (a b : Z) :
  0 <= a < 2 ^ 64 -> 0 <= b < 2 ^ 64 ->
  _mm_set_epi64x (to_int64 b) (to_int64 a) = M128 a b.
Proof.
  intros Ha Hb. unfold _mm_set_epi64x. now rewrite !to_int64_u64.
Qed.

Lemma set1_0000ffff :
  _mm_set1_epi32 0x0000ffff = M128 0x0000ffff0000ffff 0x0000ffff0000ffff.
Proof. reflexivity. Qed.

Lemma set1_00ff00ff :
  _mm_set1_epi32 0x00ff00ff = M128 0x00ff00ff00ff00ff 0x00ff00ff00ff00ff.
Proof. reflexivity. Qed.

Lemma set1_0f0f0f0f :
  _mm_set1_epi32 0x0f0f0f0f = M128 0x0f0f0f0f0f0f0f0f 0x0f0f0f0f0f0f0f0f.
Proof. reflexivity. Qed.

Lemma set1_33333333 :
  _mm_set1_epi32 0x33333333 = M128 0x3333333333333333 0x3333333333333333.
Proof. reflexivity. Qed.

Lemma set1_55555555 :
  _mm_set1_epi32 0x55555555 = M128 0x5555555555555555 0x5555555555555555.
Proof. reflexivity. Qed.

Ltac set1_constants :=
  rewrite ?set1_0000ffff, ?set1_00ff00ff, ?set1_0f0f0f0f, ?set1_33333333,
    ?set1_55555555.

Lemma mortonIndex_m128i_lanes (x y : Z) :
  mortonIndex_m128i (M128 x y) = u64 (to_int64 (mortonIndex x y)).
Proof. unfold mortonIndex_m128i. set1_constants. reflexivity. Qed.

Lemma shiftr_range (a k n : Z) : 0 <= k -> 0 <= a < 2 ^ n -> 0 <= a >> k < 2 ^ n.
Proof.
  intros Hk Ha. rewrite Z.shiftr_div_pow2 by assumption.
  assert (0 < 2 ^ k) by (apply Z.pow_pos_nonneg; lia). split.
  - apply Z.div_pos; lia.
  - apply Z.le_lt_trans with a; [|lia]. apply Z.div_le_upper_bound; nia.
Qed.

Lemma mortonIndexInverseSimd_lanes (z : Z) :
  0 <= z < 2 ^ 64 ->
  u32 (lane0 (mortonIndexInverseSimd z)) = fst (mortonIndexInverse z) /\
  u32 (lane1 (mortonIndexInverseSimd z)) = snd (mortonIndexInverse z).
Proof.
  intros Hz. unfold mortonIndexInverseSimd.
  rewrite set_epi64x_cast by (try apply shiftr_range; lia).
  set1_constants. split; reflexivity.
Qed.

Lemma pack_epi32_low (a b : Z) :
  0 <= a < 2 ^ 32 -> 0 <= b < 2 ^ 32 -> (a .| shl64 b 32) .& 0xffffffff = a.
Proof.
  intros Ha Hb. rewrite Z.lor_comm, (shl64_lor_add _ _ _ 32) by lia.
  change 0xffffffff with (Z.ones 32). rewrite Z.land_ones by lia.
  rewrite Z.add_comm, Z.mod_add by lia. now apply Z.mod_small.
Qed.

Lemma pack_epi32_high (a b : Z) :
  0 <= a < 2 ^ 32 -> 0 <= b < 2 ^ 32 -> (a .| shl64 b 32) >> 32 = b.
Proof.
  intros Ha Hb. rewrite Z.lor_comm, (shl64_lor_add _ _ _ 32) by lia.
  rewrite Z.shiftr_div_pow2, Z.div_add_l, Z.div_small by lia. lia.
Qed.

Lemma pack_epi32_range (a b : Z) :
  0 <= a < 2 ^ 32 -> 0 <= b < 2 ^ 32 -> 0 <= a .| shl64 b 32 < 2 ^ 64.
Proof.
  intros Ha Hb. apply lor_range; [lia | apply u64_range].
Qed.

Lemma shuffle_epi32_8 (a : m128i) :
  lane0 (_mm_shuffle_epi32 a 8) = u32 (lane0 a) .| shl64 (u32 (lane1 a)) 32.
Proof. reflexivity. Qed.

(** X1. On every pair of 32-bit coordinates the SSE2 version of
    [mortonIndex] ([_mm_set_epi64x], then the [__m128i] overload) returns
    the value of the portable version. *)
Theorem mortonIndex_simd_portable (x y : Z) :
  0 <= x < 2 ^ 32 -> 0 <= y < 2 ^ 32 ->
  mortonIndex_simd x y = mortonIndex x y.
Proof.
  intros Hx Hy. unfold mortonIndex_simd.
  rewrite set_epi64x_cast, mortonIndex_m128i_lanes by lia.
  apply to_int64_u64, mortonIndex_range. lia.
Qed.

Lemma mortonIndex_simd_portable_witness :
  0 <= 0xdeadbeef < 2 ^ 32 /\ 0 <= 0x12345678 < 2 ^ 32 /\
  mortonIndex_simd 0xdeadbeef 0x12345678 = mortonIndex 0xdeadbeef 0x12345678.
Proof.
  assert (Hx : 0 <= 0xdeadbeef < 2 ^ 32) by (simpl; lia).
  assert (Hy : 0 <= 0x12345678 < 2 ^ 32) by (simpl; lia).
  split; [exact Hx|]. split; [exact Hy|].
  exact (mortonIndex_simd_portable _ _ Hx Hy).
Defined.

(** X2. On every 64-bit [z] the SSE2 version of [mortonIndexInverse]
    ([mortonIndexInverseSimd], then the shuffle that gathers the two low
    halves) returns the pair of the portable version. *)
Theorem mortonIndexInverse_simd_portable (z : Z) :
  0 <= z < 2 ^ 64 -> mortonIndexInverse_simd z = mortonIndexInverse z.
Proof.
  intros Hz. destruct (mortonIndexInverseSimd_lanes z Hz) as [H0 H1].
  unfold mortonIndexInverse_simd, _mm_cvtsi128_si64.
  rewrite shuffle_epi32_8, H0, H1.
  destruct (mortonIndexInverse_range z) as [Hx Hy].
  rewrite to_int64_u64 by now apply pack_epi32_range.
  rewrite pack_epi32_low, pack_epi32_high by assumption.
  unfold u32. rewrite !Z.mod_small by assumption.
  symmetry. apply surjective_pairing.
Qed.

Lemma mortonIndexInverse_simd_portable_witness :
  0 <= 0xfedcba9876543210 < 2 ^ 64 /\
  mortonIndexInverse_simd 0xfedcba9876543210 = mortonIndexInverse 0xfedcba9876543210.
Proof.
  assert (Hz : 0 <= 0xfedcba9876543210 < 2 ^ 64) by (simpl; lia).
  split; [exact Hz|]. exact (mortonIndexInverse_simd_portable _ Hz).
Defined.

(** ** More on the Morton order *)

Lemma spread_0 : spread 0 = 0.
Proof. reflexivity. Qed.

Lemma lor_disjoint_add (a b : Z) :
  (forall i, 0 <= i -> Z.testbit a i && Z.testbit b i = false) ->
  a .| b = a + b.
Proof.
  intros H. assert (E : a .& b = 0).
  { apply Z.bits_inj'. intros i Hi. rewrite Z.land_spec, Z.bits_0. now apply H. }
  now rewrite <- Z.lxor_lor, <- Z.add_nocarry_lxor.
Qed.

Lemma shl64_spread (y : Z) : 0 <= y -> shl64 (spread y) 1 = 2 * spread y.
Proof.
  intros Hy. pose proof (spread_range y Hy) as H.
  unfold shl64. rewrite Z.shiftl_mul_pow2 by lia. change (2 ^ 1) with 2.
  rewrite u64_small; lia.
Qed.

(** The Morton index is the spread of [x] plus twice the spread of [y]. *)
Lemma mortonIndex_sum (x y : Z) :
  0 <= x < 2 ^ 32 -> 0 <= y < 2 ^ 32 ->
  mortonIndex x y = spread x + 2 * spread y.
Proof.
  intros Hx Hy. rewrite mortonIndex_spread, <- shl64_spread by lia.
  apply lor_disjoint_add. intros i Hi.
  rewrite testbit_shl64 by lia.
  destruct (Z.leb_spec 1 i) as [H1|H1]; [|btauto].
  rewrite !spread_bit by lia.
  replace i with (1 + (i - 1)) at 1 by lia.
  rewrite Z.even_add. destruct (Z.even (i - 1)); cbn; btauto.
Qed.

Lemma spread_step (x : Z) :
  0 <= x < 2 ^ 32 -> spread x = 4 * spread (x / 2) + x mod 2.
Proof.
  intros Hx.
  assert (Hx2 : 0 <= x / 2 < 2 ^ 32).
  { split; [apply Z.div_pos; lia | apply Z.div_lt_upper_bound; lia]. }
  pose proof (Z.mod_pos_bound x 2 ltac:(lia)) as Hm.
  pose proof (spread_range x ltac:(lia)) as Hs.
  pose proof (spread_range (x / 2) ltac:(lia)) as Hs2.
  assert (Hs3 : spread (x / 2) < 2 ^ 62).
  { apply bits_above_lt; [lia | lia |]. intros i Hi.
    rewrite spread_bit by lia.
    destruct (Z.even i) eqn:E; [|reflexivity]. cbn [andb].
    apply (testbit_high _ 31); [|split; [lia|apply Z.div_le_lower_bound; lia]].
    split; [lia|]. apply Z.div_lt_upper_bound; lia. }
  apply (bits_inj_below _ _ 64); try lia.
  intros i Hi. rewrite Z.mul_comm. change 4 with (2 ^ 2).
  rewrite testbit_cat, (spread_bit x) by lia.
  destruct (Z.ltb_spec i 2) as [Hlt|Hge].
  - replace (x mod 2) with (x mod 2 ^ 1) by reflexivity.
    rewrite Z.testbit_mod_pow2 by lia.
    assert (Hc : i = 0 \/ i = 1) by lia. destruct Hc as [-> | ->]; reflexivity.
  - rewrite spread_bit by lia.
    replace (x / 2) with (x >> 1) by (rewrite Z.shiftr_div_pow2 by lia; reflexivity).
    rewrite Z.shiftr_spec by (apply Z.div_pos; lia).
    replace i with (i - 2 + 1 * 2) at 1 2 by lia.
    rewrite Z.even_add, Z.div_add by lia. change (Z.even (1 * 2)) with true.
    destruct (Z.even (i - 2)); reflexivity.
Qed.

(** [spread] is strictly increasing on 32-bit words. *)
Lemma spread_lt (n : nat) :
  forall x x', 0 <= x -> x < x' -> x' < 2 ^ Z.of_nat n -> (n <= 32)%nat ->
    spread x < spread x'.
Proof.
  induction n as [|n IH]; intros x x' Hx Hlt Hx' Hn.
  - simpl in Hx'. lia.
  - assert (H32 : 2 ^ Z.of_nat (S n) <= 2 ^ 32) by (apply Z.pow_le_mono_r; lia).
    rewrite (spread_step x), (spread_step x') by lia.
    pose proof (Z.div_mod x 2 ltac:(lia)). pose proof (Z.div_mod x' 2 ltac:(lia)).
    pose proof (Z.mod_pos_bound x 2 ltac:(lia)).
    pose proof (Z.mod_pos_bound x' 2 ltac:(lia)).
    assert (0 <= x / 2) by (apply Z.div_pos; lia).
    assert (x' / 2 < 2 ^ Z.of_nat n).
    { apply Z.div_lt_upper_bound; [lia|].
      rewrite Nat2Z.inj_succ, Z.pow_succ_r in Hx' by lia. lia. }
    destruct (Z.lt_trichotomy (x / 2) (x' / 2)) as [Hd|[Hd|Hd]]; [|rewrite Hd in *|]; try lia.
    specialize (IH (x / 2) (x' / 2) ltac:(lia) Hd ltac:(lia) ltac:(lia)). lia.
Qed.

Lemma spread_le (x x' : Z) :
  0 <= x -> x <= x' -> x' < 2 ^ 32 -> spread x <= spread x'.
Proof.
  intros Hx Hle Hx'. destruct (Z.eq_dec x x') as [->|Hne]; [lia|].
  apply Z.lt_le_incl, (spread_lt 32); simpl; lia.
Qed.

(** X3. Every 64-bit [z] is the Morton index of the pair of 32-bit
    coordinates that [mortonIndexInverse] returns for it: with the round trip
    in the other direction, [mortonIndex] is a bijection from the pairs of
    32-bit integers onto the 64-bit integers. *)
Theorem mortonIndex_of_inverse (z : Z) :
  0 <= z < 2 ^ 64 ->
  0 <= fst (mortonIndexInverse z) < 2 ^ 32 /\
  0 <= snd (mortonIndexInverse z) < 2 ^ 32 /\
  mortonIndex (fst (mortonIndexInverse z)) (snd (mortonIndexInverse z)) = z.
Proof.
  intros Hz. destruct (mortonIndexInverse_range z) as [Hx Hy].
  repeat split; try lia. now apply mortonIndex_mortonIndexInverse.
Qed.

Lemma mortonIndex_of_inverse_witness :
  0 <= 0xfedcba9876543210 < 2 ^ 64 /\
  mortonIndex (fst (mortonIndexInverse 0xfedcba9876543210))
              (snd (mortonIndexInverse 0xfedcba9876543210)) = 0xfedcba9876543210.
Proof.
  assert (Hz : 0 <= 0xfedcba9876543210 < 2 ^ 64) by (simpl; lia).
  split; [exact Hz|]. exact (proj2 (proj2 (mortonIndex_of_inverse _ Hz))).
Defined.

(** X4. For 32-bit coordinates and [0 <= m <= 32], the Morton index is
    below [4^m] exactly when both coordinates are below [2^m]: the first
    [4^m] Morton indexes are those of the [2^m x 2^m] grid. *)
Theorem mortonIndex_grid_iff (x y m : Z) :
  0 <= m <= 32 -> 0 <= x < 2 ^ 32 -> 0 <= y < 2 ^ 32 ->
  (mortonIndex x y < 4 ^ m <-> x < 2 ^ m /\ y < 2 ^ m).
Proof.
  intros Hm Hx Hy. split.
  - intros Hlt.
    pose proof (mortonIndexInverse_grid (mortonIndex x y) m Hm
                  (conj (proj1 (mortonIndex_range x y (proj1 Hx))) Hlt)) as H.
    rewrite mortonIndexInverse_mortonIndex in H by assumption.
    cbn [fst snd] in H. lia.
  - intros [Hx' Hy']. apply mortonIndex_grid; lia.
Qed.

Lemma mortonIndex_grid_iff_witness :
  0 <= 2 <= 32 /\ 0 <= 3 < 2 ^ 32 /\ 0 <= 4 < 2 ^ 32 /\
  (mortonIndex 3 4 < 4 ^ 2 <-> 3 < 2 ^ 2 /\ 4 < 2 ^ 2).
Proof.
  assert (Hm : 0 <= 2 <= 32) by lia.
  assert (Hx : 0 <= 3 < 2 ^ 32) by (simpl; lia).
  assert (Hy : 0 <= 4 < 2 ^ 32) by (simpl; lia).
  split; [exact Hm|]. split; [exact Hx|]. split; [exact Hy|].
  exact (mortonIndex_grid_iff 3 4 2 Hm Hx Hy).
Defined.

Lemma mortonIndex_shiftr (x y k : Z) :
  0 <= k -> 0 <= x < 2 ^ 32 -> 0 <= y < 2 ^ 32 ->
  mortonIndex (x >> k) (y >> k) = mortonIndex x y >> (2 * k).
Proof.
  intros Hk Hx Hy.
  pose proof (shiftr_range x k 32 Hk Hx) as Hxk.
  pose proof (shiftr_range y k 32 Hk Hy) as Hyk.
  apply (bits_inj_below _ _ 64); [lia | apply mortonIndex_range; lia | |].
  - apply shiftr_range; [lia | apply mortonIndex_range; lia].
  - intros i Hi. rewrite Z.shiftr_spec by lia.
    destruct (even_odd_cases i ltac:(lia)) as (j & Hj & [->| ->]).
    + replace (2 * j + 2 * k) with (2 * (j + k)) by lia.
      now rewrite !mortonIndex_even_bit, Z.shiftr_spec by lia.
    + replace (2 * j + 1 + 2 * k) with (2 * (j + k) + 1) by lia.
      now rewrite !mortonIndex_odd_bit, Z.shiftr_spec by lia.
Qed.

(** X5. Dropping the [k] low bits of both 32-bit coordinates drops the
    [2k] low bits of the Morton index: the index of the enclosing cell of a
    coarser grid is a prefix of the index of the cell. *)
Theorem mortonIndex_parent (x y k : Z) :
  0 <= k -> 0 <= x < 2 ^ 32 -> 0 <= y < 2 ^ 32 ->
  mortonIndex (x >> k) (y >> k) = mortonIndex x y >> (2 * k).
Proof. apply mortonIndex_shiftr. Qed.

Lemma mortonIndex_parent_witness :
  0 <= 3 /\ 0 <= 0xdeadbeef < 2 ^ 32 /\ 0 <= 0x12345678 < 2 ^ 32 /\
  mortonIndex (0xdeadbeef >> 3) (0x12345678 >> 3) =
  mortonIndex 0xdeadbeef 0x12345678 >> (2 * 3).
Proof.
  assert (Hk : 0 <= 3) by lia.
  assert (Hx : 0 <= 0xdeadbeef < 2 ^ 32) by (simpl; lia).
  assert (Hy : 0 <= 0x12345678 < 2 ^ 32) by (simpl; lia).
  split; [exact Hk|]. split; [exact Hx|]. split; [exact Hy|].
  exact (mortonIndex_parent _ _ 3 Hk Hx Hy).
Defined.

(** X6. The two coordinates contribute independently: the Morton index of
    [(x, y)] is the index of [(x, 0)] plus twice the index of [(y, 0)]. *)
Theorem mortonIndex_separable (x y : Z) :
  0 <= x < 2 ^ 32 -> 0 <= y < 2 ^ 32 ->
  mortonIndex x y = mortonIndex x 0 + 2 * mortonIndex y 0.
Proof.
  intros Hx Hy. rewrite !mortonIndex_sum by lia. rewrite spread_0. lia.
Qed.

Lemma mortonIndex_separable_witness :
  0 <= 5 < 2 ^ 32 /\ 0 <= 2 < 2 ^ 32 /\
  mortonIndex 5 2 = mortonIndex 5 0 + 2 * mortonIndex 2 0.
Proof.
  assert (Hx : 0 <= 5 < 2 ^ 32) by (simpl; lia).
  assert (Hy : 0 <= 2 < 2 ^ 32) by (simpl; lia).
  split; [exact Hx|]. split; [exact Hy|].
  exact (mortonIndex_separable 5 2 Hx Hy).
Defined.

(** X7. The Morton index is monotone in each coordinate: inside a
    rectangle of 32-bit cells, the index of every cell lies between the index
    of the lower-left corner and the index of the upper-right corner. *)
Theorem mortonIndex_rectangle (x0 y0 x y x1 y1 : Z) :
  0 <= x0 <= x -> x <= x1 < 2 ^ 32 -> 0 <= y0 <= y -> y <= y1 < 2 ^ 32 ->
  mortonIndex x0 y0 <= mortonIndex x y <= mortonIndex x1 y1.
Proof.
  intros Hx0 Hx1 Hy0 Hy1. rewrite !mortonIndex_sum by lia.
  pose proof (spread_le x0 x ltac:(lia) ltac:(lia) ltac:(lia)).
  pose proof (spread_le x x1 ltac:(lia) ltac:(lia) ltac:(lia)).
  pose proof (spread_le y0 y ltac:(lia) ltac:(lia) ltac:(lia)).
  pose proof (spread_le y y1 ltac:(lia) ltac:(lia) ltac:(lia)).
  lia.
Qed.

Lemma mortonIndex_rectangle_witness :
  0 <= 1 <= 5 /\ 5 <= 6 < 2 ^ 32 /\ 0 <= 2 <= 2 /\ 2 <= 9 < 2 ^ 32 /\
  mortonIndex 1 2 <= mortonIndex 5 2 <= mortonIndex 6 9.
Proof.
  assert (Hx0 : 0 <= 1 <= 5) by lia.
  assert (Hx1 : 5 <= 6 < 2 ^ 32) by (simpl; lia).
  assert (Hy0 : 0 <= 2 <= 2) by lia.
  assert (Hy1 : 2 <= 9 < 2 ^ 32) by (simpl; lia).
  split; [exact Hx0|]. split; [exact Hx1|]. split; [exact Hy0|].
  split; [exact Hy1|].
  exact (mortonIndex_rectangle 1 2 5 2 6 9 Hx0 Hx1 Hy0 Hy1).
Defined.

(** ** More on the Hilbert order *)

(** The first [a] output bit pairs depend on the first [a] input pairs
    only. *)
Lemma run_prefix (L : Z) (a b : nat) (s w : Z) :
  fst (run L (a + b) s w) >> (2 * Z.of_nat b) =
  fst (run L a s (w >> (2 * Z.of_nat b))).
Proof.
  rewrite run_app.
  destruct (run L a s (w >> (2 * Z.of_nat b))) as [o1 s1].
  pose proof (run_range L b s1 w) as Ho2.
  destruct (run L b s1 w) as [o2 s2]. cbn [fst] in *.
  rewrite Z.shiftr_div_pow2, <- pow4_pow2 by lia.
  rewrite Z.div_add_l, Z.div_small by lia. lia.
Qed.

Lemma lut3_convert_shiftr (T : list Z) (L w m k : Z) :
  unrolled T L = true -> 0 <= k <= m -> m <= 32 ->
  lut3_convert T (w >> (2 * k)) (m - k) = lut3_convert T w m >> (2 * k).
Proof.
  intros HT Hk Hm. rewrite !(lut3_convert_run T L) by (assumption || lia).
  replace (Z.to_nat m) with (Z.to_nat (m - k) + Z.to_nat k)%nat by lia.
  replace (2 * k) with (2 * Z.of_nat (Z.to_nat k)) by lia.
  symmetry. apply run_prefix.
Qed.

Lemma mortonIndexInverse_shiftr (z k : Z) :
  0 <= k -> 0 <= z < 2 ^ 64 ->
  mortonIndexInverse (z >> (2 * k)) =
  (fst (mortonIndexInverse z) >> k, snd (mortonIndexInverse z) >> k).
Proof.
  intros Hk Hz. destruct (mortonIndexInverse_range z) as [Hx Hy].
  rewrite <- (mortonIndex_mortonIndexInverse z Hz) at 1.
  rewrite <- mortonIndex_shiftr by assumption.
  apply mortonIndexInverse_mortonIndex; now apply shiftr_range.
Qed.

Lemma pow4_le_64 (m : Z) : 0 <= m <= 32 -> 4 ^ m <= 2 ^ 64.
Proof.
  intros Hm. rewrite pow4_pow2_Z by lia. apply Z.pow_le_mono_r; lia.
Qed.

(** X8. The Hilbert index of the enclosing cell of the grid coarser by [k]
    levels is the Hilbert index of the cell without its [2k] low bits: each
    aligned block of [4^k] consecutive indexes of the order-[m] curve fills
    one cell of the order-[m - k] curve, and the blocks follow that curve. *)
Theorem hilbertIndex_parent (x y m k : Z) :
  0 <= k <= m -> m <= 32 -> 0 <= x < 2 ^ 32 -> 0 <= y < 2 ^ 32 ->
  hilbertIndex (x >> k) (y >> k) (m - k) = hilbertIndex x y m >> (2 * k).
Proof.
  intros Hk Hm Hx Hy. unfold hilbertIndex, mortonToHilbert.
  rewrite mortonIndex_shiftr by lia.
  apply (lut3_convert_shiftr _ _ _ _ _ HILBERT_LUT_3_unrolled); lia.
Qed.

Lemma hilbertIndex_parent_witness :
  0 <= 2 <= 5 /\ 5 <= 32 /\ 0 <= 27 < 2 ^ 32 /\ 0 <= 14 < 2 ^ 32 /\
  hilbertIndex (27 >> 2) (14 >> 2) (5 - 2) = hilbertIndex 27 14 5 >> (2 * 2).
Proof.
  assert (Hk : 0 <= 2 <= 5) by lia.
  assert (Hm : 5 <= 32) by lia.
  assert (Hx : 0 <= 27 < 2 ^ 32) by (simpl; lia).
  assert (Hy : 0 <= 14 < 2 ^ 32) by (simpl; lia).
  split; [exact Hk|]. split; [exact Hm|]. split; [exact Hx|]. split; [exact Hy|].
  exact (hilbertIndex_parent 27 14 5 2 Hk Hm Hx Hy).
Defined.

(** X9. Conversely, the cell of the index [h] without its [2k] low bits, on
    the curve of order [m - k], is the cell of [h] on the curve of order [m]
    with the [k] low bits of both coordinates dropped. *)
Theorem hilbertIndexInverse_parent (h m k : Z) :
  0 <= k <= m -> m <= 32 ->
  hilbertIndexInverse (h >> (2 * k)) (m - k) =
  (fst (hilbertIndexInverse h m) >> k, snd (hilbertIndexInverse h m) >> k).
Proof.
  intros Hk Hm. unfold hilbertIndexInverse, hilbertToMorton.
  rewrite (lut3_convert_shiftr _ _ _ _ _ HILBERT_INVERSE_LUT_3_unrolled) by lia.
  apply mortonIndexInverse_shiftr; [lia|].
  pose proof (hilbertToMorton_range h m ltac:(lia)) as Hz.
  pose proof (pow4_le_64 m ltac:(lia)). unfold hilbertToMorton in Hz. lia.
Qed.

Lemma hilbertIndexInverse_parent_witness :
  0 <= 2 <= 5 /\ 5 <= 32 /\
  hilbertIndexInverse (777 >> (2 * 2)) (5 - 2) =
  (fst (hilbertIndexInverse 777 5) >> 2, snd (hilbertIndexInverse 777 5) >> 2).
Proof.
  assert (Hk : 0 <= 2 <= 5) by lia.
  assert (Hm : 5 <= 32) by lia.
  split; [exact Hk|]. split; [exact Hm|].
  exact (hilbertIndexInverse_parent 777 5 2 Hk Hm).
Defined.

(** X10. For every order [0 <= m <= 32] and every 64-bit input, the two
    table-driven conversions return a value below [4^m] and undo each other
    on the [2m] low bits of their input; the bits above are dropped. *)
Theorem mortonToHilbert_hilbertToMorton_inverse (m w : Z) :
  0 <= m <= 32 -> 0 <= w < 2 ^ 64 ->
  0 <= mortonToHilbert w m < 4 ^ m /\
  0 <= hilbertToMorton w m < 4 ^ m /\
  hilbertToMorton (mortonToHilbert w m) m = w mod 4 ^ m /\
  mortonToHilbert (hilbertToMorton w m) m = w mod 4 ^ m.
Proof.
  intros Hm _. split; [now apply mortonToHilbert_range|].
  split; [now apply hilbertToMorton_range|]. split.
  - now apply hilbertToMorton_mortonToHilbert.
  - now apply mortonToHilbert_hilbertToMorton.
Qed.

Lemma mortonToHilbert_hilbertToMorton_inverse_witness :
  0 <= 7 <= 32 /\ 0 <= 0xfedcba9876543210 < 2 ^ 64 /\
  hilbertToMorton (mortonToHilbert 0xfedcba9876543210 7) 7 =
  0xfedcba9876543210 mod 4 ^ 7.
Proof.
  assert (Hm : 0 <= 7 <= 32) by lia.
  assert (Hw : 0 <= 0xfedcba9876543210 < 2 ^ 64) by (simpl; lia).
  split; [exact Hm|]. split; [exact Hw|].
  exact (proj1 (proj2 (proj2 (mortonToHilbert_hilbertToMorton_inverse 7 _ Hm Hw)))).
Defined.

Lemma hilbertIndex_hilbertIndexInverse (h m : Z) :
  0 <= m <= 32 -> 0 <= h < 4 ^ m ->
  hilbertIndex (fst (hilbertIndexInverse h m)) (snd (hilbertIndexInverse h m)) m = h.
Proof.
  intros Hm Hh. unfold hilbertIndex, hilbertIndexInverse.
  pose proof (hilbertToMorton_range h m Hm) as Hz.
  pose proof (pow4_le_64 m Hm).
  rewrite mortonIndex_mortonIndexInverse by lia.
  rewrite mortonToHilbert_hilbertToMorton by assumption.
  now apply Z.mod_small.
Qed.

Lemma digit_0 (k : nat) : digit 0 k = 0.
Proof. unfold digit. now rewrite Z.shiftr_0_l. Qed.

Lemma hilbertIndexInverse_first (m : Z) :
  0 <= m <= 32 -> hilbertIndexInverse 0 m = (0, 0).
Proof.
  intros Hm. rewrite hilbertIndexInverse_curve by assumption.
  rewrite curve_entry by (lia || (intros; apply digit_0)).
  reflexivity.
Qed.

Lemma hilbertIndexInverse_last (m : Z) :
  0 <= m <= 32 -> hilbertIndexInverse (4 ^ m - 1) m = (2 ^ m - 1, 0).
Proof.
  intros Hm. rewrite hilbertIndexInverse_curve by assumption.
  rewrite <- (pow4_Z m) by lia.
  rewrite curve_exit by (lia || (intros; now apply digit_ones)).
  change (exit_corner 0) with (1, 0). cbn [fst snd].
  rewrite Z2Nat.id by lia. f_equal; lia.
Qed.

(** X11. For every order [0 <= m <= 32] the curve starts at the cell
    [(0, 0)], of index 0, and ends at the cell [(2^m - 1, 0)], of index
    [4^m - 1]: it runs from the lower-left to the lower-right corner of the
    grid. *)
Theorem hilbert_endpoints (m : Z) :
  0 <= m <= 32 ->
  hilbertIndexInverse 0 m = (0, 0) /\
  hilbertIndexInverse (4 ^ m - 1) m = (2 ^ m - 1, 0) /\
  hilbertIndex 0 0 m = 0 /\
  hilbertIndex (2 ^ m - 1) 0 m = 4 ^ m - 1.
Proof.
  intros Hm. assert (0 < 4 ^ m) by (apply Z.pow_pos_nonneg; lia).
  pose proof (hilbertIndex_hilbertIndexInverse 0 m Hm ltac:(lia)) as H0.
  pose proof (hilbertIndex_hilbertIndexInverse (4 ^ m - 1) m Hm ltac:(lia)) as H1.
  rewrite hilbertIndexInverse_first in H0 by assumption.
  rewrite hilbertIndexInverse_last in H1 by assumption.
  repeat split; try assumption.
  - now apply hilbertIndexInverse_first.
  - now apply hilbertIndexInverse_last.
Qed.

Lemma hilbert_endpoints_witness :
  0 <= 32 <= 32 /\
  hilbertIndexInverse (4 ^ 32 - 1) 32 = (2 ^ 32 - 1, 0) /\
  hilbertIndex (2 ^ 32 - 1) 0 32 = 4 ^ 32 - 1.
Proof.
  assert (Hm : 0 <= 32 <= 32) by lia.
  split; [exact Hm|]. split.
  - exact (proj1 (proj2 (hilbert_endpoints 32 Hm))).
  - exact (proj2 (proj2 (proj2 (hilbert_endpoints 32 Hm)))).
Defined.

(** X12. Run on [HILBERT_INVERSE_LUT_1], the one-bit-pair loop of the
    header comment computes [hilbertToMorton]: for every order
    [0 <= m <= 32] and every 64-bit [h] the table-driven function returns
    what that loop returns. *)
Theorem hilbertToMorton_reference (m h : Z) :
  0 <= m <= 32 -> 0 <= h < 2 ^ 64 ->
  hilbertToMorton h m = hilbertToMorton_ref h m.
Proof.
  intros Hm _. rewrite hilbertToMorton_run by assumption.
  unfold hilbertToMorton_ref.
  replace (2 * m) with (2 * Z.of_nat (Z.to_nat m)) at 2 by lia.
  assert (HL : 0 <= HILBERT_INVERSE_LUT_1) by (unfold HILBERT_INVERSE_LUT_1; lia).
  rewrite (lut1_loop_run _ _ HL _ _ 0%nat) by lia.
  reflexivity.
Qed.

Lemma hilbertToMorton_reference_witness :
  0 <= 32 <= 32 /\ 0 <= 0xfedcba9876543210 < 2 ^ 64 /\
  hilbertToMorton 0xfedcba9876543210 32 = hilbertToMorton_ref 0xfedcba9876543210 32.
Proof.
  assert (Hm : 0 <= 32 <= 32) by lia.
  assert (Hh : 0 <= 0xfedcba9876543210 < 2 ^ 64) by (simpl; lia).
  split; [exact Hm|]. split; [exact Hh|].
  exact (hilbertToMorton_reference 32 _ Hm Hh).
Defined.

(** *** The state in which the 6-bit loop is left *)







(** *** Distance along the curve *)

Lemma adjacent_manhattan (p q : Z * Z) : adjacent p q -> manhattan p q = 1.
Proof. unfold adjacent, manhattan. intros [[H1 H2]|[H1 H2]]; lia. Qed.

Lemma manhattan_triangle (p q r : Z * Z) :
  manhattan p r <= manhattan p q + manhattan q r.
Proof. unfold manhattan. lia. Qed.

Lemma curve_distance (n : nat) (s h : Z) (d : nat) :
  0 <= s < 4 -> 0 <= h -> h + Z.of_nat d < 4 ^ Z.of_nat n ->
  manhattan (curve n s h) (curve n s (h + Z.of_nat d)) <= Z.of_nat d.
Proof.
  intros Hs Hh. induction d as [|d IH]; intros Hlt.
  - rewrite Z.add_0_r. unfold manhattan. lia.
  - specialize (IH ltac:(lia)).
    pose proof (curve_adjacent n s (h + Z.of_nat d) Hs ltac:(lia) ltac:(lia)) as Ha.
    apply adjacent_manhattan in Ha.
    replace (h + Z.of_nat (S d)) with (h + Z.of_nat d + 1) by lia.
    pose proof (manhattan_triangle (curve n s h) (curve n s (h + Z.of_nat d))
                  (curve n s (h + Z.of_nat d + 1))).
    lia.
Qed.

(** X14. On the curve of any order [0 <= m <= 32], two cells are never
    further apart than their indexes: for [h <= h'] below [4^m], the
    Manhattan distance between the cells of [h] and [h'] is at most
    [h' - h]. *)
Theorem hilbert_distance (m h h' : Z) :
  0 <= m <= 32 -> 0 <= h <= h' -> h' < 4 ^ m ->
  manhattan (hilbertIndexInverse h m) (hilbertIndexInverse h' m) <= h' - h.
Proof.
  intros Hm Hh Hh'. rewrite !hilbertIndexInverse_curve by assumption.
  replace h' with (h + Z.of_nat (Z.to_nat (h' - h))) at 1 by lia.
  replace (h' - h) with (Z.of_nat (Z.to_nat (h' - h))) at 2 by lia.
  apply curve_distance; [lia | lia |].
  rewrite pow4_Z by lia. lia.
Qed.

Lemma hilbert_distance_witness :
  0 <= 4 <= 32 /\ 0 <= 10 <= 200 /\ 200 < 4 ^ 4 /\
  manhattan (hilbertIndexInverse 10 4) (hilbertIndexInverse 200 4) <= 200 - 10.
Proof.
  assert (Hm : 0 <= 4 <= 32) by lia.
  assert (Hh : 0 <= 10 <= 200) by lia.
  assert (Hh' : 200 < 4 ^ 4) by (simpl; lia).
  split; [exact Hm|]. split; [exact Hh|]. split; [exact Hh'|].
  exact (hilbert_distance 4 10 200 Hm Hh Hh').
Defined.

(** ** More on [log2] *)

Lemma log2_64_0 : Log2.log2_64 0 = 0.
Proof. reflexivity. Qed.

Lemma log2_32_0 : Log2.log2_32 0 = 0.
Proof. reflexivity. Qed.

Lemma log2_64_Zlog2 (x : Z) : 0 <= x < 2 ^ 64 -> Log2.log2_64 x = Z.log2 x.
Proof.
  intros Hx. destruct (Z.eq_dec x 0) as [->|Hnz]; [reflexivity|].
  apply log2_64_log2. lia.
Qed.

(** X15. The two overloads agree: on every 32-bit [x], zero included, the
    32-bit [log2] returns what the 64-bit [log2] returns, although they hash
    a different word (all ones below the top bit, resp. the top bit alone)
    with a different De Bruijn sequence and table. *)
Theorem log2_overloads_agree (x : Z) :
  0 <= x < 2 ^ 32 -> Log2.log2_32 x = Log2.log2_64 x.
Proof.
  intros Hx. destruct (Z.eq_dec x 0) as [->|Hnz]; [reflexivity|].
  rewrite log2_32_log2, log2_64_log2 by lia. reflexivity.
Qed.

Lemma log2_overloads_agree_witness :
  0 <= 0x00ffff00 < 2 ^ 32 /\ Log2.log2_32 0x00ffff00 = Log2.log2_64 0x00ffff00.
Proof.
  assert (Hx : 0 <= 0x00ffff00 < 2 ^ 32) by (simpl; lia).
  split; [exact Hx|]. exact (log2_overloads_agree _ Hx).
Defined.

(** X16. The 64-bit [log2] is the integer binary logarithm: it is at most
    63, it is monotone, and for [x > 0] it brackets [x] between
    [2^log2(x)] and [2^(log2(x) + 1)]. *)
Theorem log2_floor (x y : Z) :
  0 <= x <= y -> y < 2 ^ 64 ->
  0 <= Log2.log2_64 x <= Log2.log2_64 y /\ Log2.log2_64 y <= 63 /\
  (0 < x -> 2 ^ Log2.log2_64 x <= x < 2 ^ (Log2.log2_64 x + 1)).
Proof.
  intros Hx Hy. rewrite !log2_64_Zlog2 by lia. split; [|split].
  - split; [apply Z.log2_nonneg | apply Z.log2_le_mono; lia].
  - destruct (Z.eq_dec y 0) as [->|Hnz]; [simpl; lia|].
    pose proof (log2_bound y 64 ltac:(lia)). lia.
  - intros Hpos. pose proof (Z.log2_spec x Hpos) as H.
    rewrite Z.add_1_r. exact H.
Qed.

Lemma log2_floor_witness :
  0 <= 1000 <= 0x8000000000000001 /\ 0x8000000000000001 < 2 ^ 64 /\
  0 <= Log2.log2_64 1000 <= Log2.log2_64 0x8000000000000001.
Proof.
  assert (Hx : 0 <= 1000 <= 0x8000000000000001) by lia.
  assert (Hy : 0x8000000000000001 < 2 ^ 64) by (simpl; lia).
  split; [exact Hx|]. split; [exact Hy|].
  exact (proj1 (log2_floor _ _ Hx Hy)).
Defined.
